(** * PTheremin: note table, scale quantizer, tone generator, playback loop

    A shallow embedding of the synthesis core of [ptheremin.py]:

    - the note lattice [NOTES] and its key rotation ([key_changed],
      [new_tone_filter]);
    - the scale quantizer [discrete_tones];
    - the generator [tone_gen] nested in [PlaybackThread.run];
    - the playback loop of [PlaybackThread.run] with the recording buffer.

    Numbers.  Python floats are modelled by exact rationals [Q]: the
    comparisons and the arithmetic of the source are kept operation by
    operation, rounding is not modelled.  [math.sin] has no rational
    counterpart, so the generator is parameterised by a function [sin2pi]
    standing for [t |-> sin(2*pi*t)]; the source's sample
    [sin(2*pi*ft*x/fs)] is [sin2pi (ft * x / fs)].

    Objects.  [self.recording] is a reference to a buffer object; the
    buffers live in a store [heap] and are named by locations, so that the
    bound method [record_func = self.recording.append] taken at the start of
    [run] and the attribute [self.recording] can name different objects. *)

From Stdlib Require Import QArith Qabs Qround Lqa ZArith List String Ascii Lia.
From Stdlib Require Import DecimalString.
From stdpp Require Import gmap strings.
Import ListNotations.

Local Open Scope Q_scope.

(** ** Numbers *)

(** [a < b] on floats, as a boolean. *)
Definition Qltb (a b : Q) : bool :=
  match a ?= b with Lt => true | _ => false end.

(** [a != b] on numbers. *)
Definition Qneqb (a b : Q) : bool := negb (Qeq_bool a b).

(** Python's [int(f)] on a float: truncation toward zero. *)
Definition py_int (f : Q) : Z := Z.quot (Qnum f) (Z.pos (Qden f)).

(** ** Exceptions *)

Inductive exn : Type :=
  | IndexError     (* tones[0] or pop(0) on an empty list *)
  | KeyError       (* shifts[self.key] on an unknown key *)
  | NameError      (* key_notes unbound: no branch of the scale test taken *)
  | StructError.   (* struct.pack("h", v) with v outside the short range *)

Inductive result (A : Type) : Type :=
  | Ok (a : A)
  | Raise (e : exn).
Arguments Ok {A} a.
Arguments Raise {A} e.

(** Sequencing: the first exception raised ends the computation.  The
    notation [x ← m; k] is stdpp's. *)
#[global] Instance result_bind : MBind result := fun A B k m =>
  match m with
  | Ok a => k a
  | Raise e => Raise e
  end.

(** ** The note table *)

Definition Note : Type := (string * Q)%type.

Definition sharp : Q := 1.05946.

Definition equal_temp_freqs : list Q :=
  [ 16.352; 16.352 * sharp; 18.354; 18.354 * sharp; 20.602; 21.827;
    21.827 * sharp; 24.500; 24.500 * sharp; 27.500; 27.500 * sharp; 30.868 ].

Definition equal_temp_labels : list string :=
  [ "C*"; "C*#"; "D*"; "D*#"; "E*"; "F*"; "F*#"; "G*"; "G*#"; "A*"; "A*#";
    "B*" ]%string.

Definition equal_temp_tuning : list Note :=
  combine equal_temp_labels equal_temp_freqs.

Definition SCALES : list string :=
  [ "chromatic"; "diatonic major"; "pentatonic major"; "pentatonic minor";
    "blues" ]%string.

Definition diatonic_major_intervals : list nat := [0; 2; 4; 5; 7; 9; 11]%nat.
Definition pentatonic_major_intervals : list nat := [0; 2; 4; 7; 9]%nat.
Definition pentatonic_minor_intervals : list nat := [0; 3; 5; 7; 10]%nat.
Definition blues_intervals : list nat := [0; 3; 5; 6; 7; 10]%nat.

(** ["%d" % octave] *)
Definition decimal (n : nat) : string := NilZero.string_of_uint (Nat.to_uint n).

(** [label.replace('*', d)] *)
Fixpoint replace_star (d : string) (label : string) : string :=
  match label with
  | EmptyString => EmptyString
  | String c rest =>
      if Ascii.eqb c "*"%char
      then String.append d (replace_star d rest)
      else String c (replace_star d rest)
  end.

(** The module-level loop that builds several octaves of notes. *)
Definition NOTES : list Note :=
  flat_map
    (fun octave =>
       map (fun '(label, freq) =>
              (replace_star (decimal octave) label,
               inject_Z (2 ^ Z.of_nat octave) * freq))
           equal_temp_tuning)
    (seq 0 11).

Definition just_freqs (notes : list Note) : list Q := map snd notes.

(** [[n for i,n in enumerate(notes) if i % 12 in intervals]], with [i] the
    index of the head of [notes]. *)
Fixpoint select_from (i : nat) (intervals : list nat) (notes : list Note)
  : list Note :=
  match notes with
  | [] => []
  | n :: rest =>
      if existsb (Nat.eqb (i mod 12)) intervals
      then n :: select_from (S i) intervals rest
      else select_from (S i) intervals rest
  end.

Definition select (intervals : list nat) (notes : list Note) : list Note :=
  select_from 0 intervals notes.

(** The dictionary [shifts] of [key_changed]. *)
Definition shifts : gmap string nat :=
  list_to_map
    [ ("A", 9); ("A#", 10); ("B", 11); ("C", 0); ("C#", 1); ("D", 2);
      ("D#", 3); ("E", 4); ("F", 5); ("F#", 6); ("G", 7); ("G#", 8) ]%nat.

(** [for i in range(n): notes.append(notes.pop(0))] *)
Fixpoint shift_notes (n : nat) (notes : list Note) : result (list Note) :=
  match n with
  | O => Ok notes
  | S n' =>
      match notes with
      | [] => Raise IndexError
      | first :: rest => shift_notes n' (rest ++ [first])
      end
  end.

(** The fields of [ThereminApp] that the tone filter depends on.  The
    closure returned by [discrete_tones(tones)] is represented by the list
    [tones] it captured. *)
Record ThereminApp : Type := {
  scale : string;
  key : string;
  shifted_notes : list Note;
  discrete_notes : list Note;
  root_notes : list Note;
  tone_filter : list Q
}.

Definition new_tone_filter (app : ThereminApp) : result ThereminApp :=
  let roots := select [0%nat] (shifted_notes app) in
  key_notes ←
    (if String.eqb (scale app) "chromatic" then Ok NOTES
     else if String.eqb (scale app) "diatonic major"
       then Ok (select diatonic_major_intervals (shifted_notes app))
     else if String.eqb (scale app) "pentatonic major"
       then Ok (select pentatonic_major_intervals (shifted_notes app))
     else if String.eqb (scale app) "pentatonic minor"
       then Ok (select pentatonic_minor_intervals (shifted_notes app))
     else if String.eqb (scale app) "blues"
       then Ok (select blues_intervals (shifted_notes app))
     else Raise NameError);
  Ok {| scale := scale app;
        key := key app;
        shifted_notes := shifted_notes app;
        discrete_notes := key_notes;
        root_notes := roots;
        tone_filter := just_freqs key_notes |}.

(** [scale_changed], for the button that has become active. *)
Definition scale_changed (scale_name : string) (app : ThereminApp)
  : result ThereminApp :=
  new_tone_filter
    {| scale := scale_name;
       key := key app;
       shifted_notes := shifted_notes app;
       discrete_notes := discrete_notes app;
       root_notes := root_notes app;
       tone_filter := tone_filter app |}.

Definition key_changed (key_text : string) (app : ThereminApp)
  : result ThereminApp :=
  n ← match shifts !! key_text with
      | Some n => Ok n
      | None => Raise KeyError
      end;
  shifted ← shift_notes n NOTES;
  new_tone_filter
    {| scale := scale app;
       key := key_text;
       shifted_notes := shifted;
       discrete_notes := discrete_notes app;
       root_notes := root_notes app;
       tone_filter := tone_filter app |}.

(** The part of [ThereminApp.__init__] that sets these fields. *)
Definition app_init : ThereminApp :=
  {| scale := "chromatic";
     key := "C";
     shifted_notes := NOTES;
     discrete_notes := NOTES;
     root_notes := select [0%nat] NOTES;
     tone_filter := just_freqs NOTES |}.

(** Ascending order of a frequency list, as a decidable test. *)
Fixpoint ascending (l : list Q) : bool :=
  match l with
  | [] => true
  | a :: rest =>
      match rest with
      | [] => true
      | b :: _ => Qle_bool a b && ascending rest
      end
  end.

(** The rotation as claim C7 words it: the first [k] elements of every
    full cycle of twelve notes go to the end of that cycle.  This follows
    the specification's sentence, for comparison with [shift_notes]. *)
Fixpoint rotate_each_cycle_fuel (fuel k : nat) (notes : list Note)
  : list Note :=
  match fuel with
  | O => notes
  | S fuel' =>
      if (length notes <? 12)%nat then notes
      else
        let cycle := firstn 12 notes in
        (skipn k cycle ++ firstn k cycle)
          ++ rotate_each_cycle_fuel fuel' k (skipn 12 notes)
  end.

Definition rotate_each_cycle (k : nat) (notes : list Note) : list Note :=
  rotate_each_cycle_fuel (length notes) k notes.

(** ** The quantizer [discrete_tones] *)

(** The locals of [filt] when its [for] loop is over, with the index at
    which [break] was executed, if it was. *)
Record scan_result : Type := {
  closest : Q;
  err : Q;
  mean : Q;
  broke_at : option nat
}.

(** The loop [for i,tone in enumerate(tones)], entered at index [i] on the
    remaining [tones] with the running [closest] and [err]. *)
Fixpoint scan (x : Q) (i : nat) (tones : list Q) (closest err : Q)
  : scan_result :=
  match tones with
  | [] => {| closest := closest; err := err; mean := 0; broke_at := None |}
  | tone :: rest =>
      let tone_err := Qabs (x - tone) in
      if Qltb tone_err err then scan x (S i) rest tone tone_err
      else if Qltb err tone_err then
        {| closest := closest;
           err := err;
           mean := if (0 <? i)%nat then (x - closest) / 2 else 0;
           broke_at := Some i |}
      else scan x (S i) rest closest err
  end.

(** [filt(x)] for the closure made by [discrete_tones(tones)].  The
    generator [iir] it creates is never advanced and has no effect. *)
Definition filt (tones : list Q) (x : Q) : result Q :=
  match tones with
  | [] => Raise IndexError
  | first :: _ =>
      let r := scan x 0 tones first 500000 in
      Ok (closest r + mean r)
  end.

Definition discrete_tones (tones : list Q) : Q -> result Q := filt tones.

(** The running [(closest, err)] after the loop has gone through [tones]
    without taking the [break]. *)
Fixpoint running (x : Q) (tones : list Q) (closest err : Q) : Q * Q :=
  match tones with
  | [] => (closest, err)
  | tone :: rest =>
      if Qltb (Qabs (x - tone)) err
      then running x rest tone (Qabs (x - tone))
      else running x rest closest err
  end.

(** No entry of [pre] exceeds the running error on its turn. *)
Definition no_break (x : Q) (pre : list Q) (c e : Q) : Prop :=
  forall p1 t p2, pre = p1 ++ t :: p2 ->
    ~ snd (running x p1 c e) < Qabs (x - t).

(** The absolute errors of the table entries, in ascending order, and the
    distance from [x] to the second-nearest entry. *)
Definition errors (tones : list Q) (x : Q) : list Q :=
  map (fun tone => Qabs (x - tone)) tones.

Fixpoint insert_sorted (e : Q) (l : list Q) : list Q :=
  match l with
  | [] => [e]
  | h :: rest => if Qle_bool e h then e :: l else h :: insert_sorted e rest
  end.

Definition sort_errors (l : list Q) : list Q := fold_right insert_sorted [] l.

Definition second_nearest_err (tones : list Q) (x : Q) : option Q :=
  nth_error (sort_errors (errors tones x)) 1.

(** [x] lies within the span of a table. *)
Definition in_span (tones : list Q) (x : Q) : Prop :=
  match tones with
  | [] => False
  | first :: _ => first <= x /\ x <= List.last tones first
  end.

(** ** The generator [tone_gen] *)

(** The locals of a suspended [tone_gen] frame. *)
Record tone_locals : Type := {
  gen_x : Z;
  gen_ft : Q;
  gen_sample : Q;
  gen_prev_sample : Q
}.

(** A generator object: its argument [fs], and its frame once the first
    [next()] has started the body. *)
Record generator : Type := {
  gen_fs : Q;
  gen_frame : option tone_locals
}.

(** The attributes of a [PlaybackThread].  [recording] is a reference. *)
Definition loc : Type := nat.

Record PlaybackThread : Type := {
  fs : Q;
  ft : Q;
  vol : Q;
  paused : bool;
  alive : bool;
  recording : loc
}.

Definition tone_gen (fs : Q) : generator :=
  {| gen_fs := fs; gen_frame := None |}.

(** The test of the [if] in the generator, on the sample just computed. *)
Definition commits (ft self_ft sample prev_sample : Q) : bool :=
  Qneqb ft self_ft && (Qltb sample 0.01 && Qltb (-0.01) sample)
  && Qltb prev_sample sample.

(** The body of the generator, statement by statement.  [gen_start]: the
    frame to resume, or the initial locals when the body has not run yet
    (the body, and with it [ft = self.ft], first runs on the first
    [next()]). *)
Definition gen_start (self : PlaybackThread) (tone : generator) : tone_locals :=
  match gen_frame tone with
  | None => {| gen_x := 0; gen_ft := ft self;
               gen_sample := 0; gen_prev_sample := 0 |}
  | Some l => l
  end.

(** [prev_sample = sample; sample = sin(2*pi*ft*x/fs)] *)
Definition gen_compute (sin2pi : Q -> Q) (fs : Q) (l : tone_locals)
  : tone_locals :=
  {| gen_x := gen_x l;
     gen_ft := gen_ft l;
     gen_sample := sin2pi (gen_ft l * inject_Z (gen_x l) / fs);
     gen_prev_sample := gen_sample l |}.

(** [if ft != self.ft and ...: ft = self.ft; x = 0] *)
Definition gen_commit (self : PlaybackThread) (l : tone_locals) : tone_locals :=
  if commits (gen_ft l) (ft self) (gen_sample l) (gen_prev_sample l)
  then {| gen_x := 0;
          gen_ft := ft self;
          gen_sample := gen_sample l;
          gen_prev_sample := gen_prev_sample l |}
  else l.

(** [x += 1] *)
Definition gen_advance (l : tone_locals) : tone_locals :=
  {| gen_x := gen_x l + 1;
     gen_ft := gen_ft l;
     gen_sample := gen_sample l;
     gen_prev_sample := gen_prev_sample l |}.

(** [tone.next()]: run the body from where it was suspended up to the next
    [yield sample*self.vol*0.95]; [self] is read as it is during this
    call. *)
Definition next (sin2pi : Q -> Q) (self : PlaybackThread) (tone : generator)
  : generator * Q :=
  let l := gen_advance
             (gen_commit self
                (gen_compute sin2pi (gen_fs tone) (gen_start self tone))) in
  ({| gen_fs := gen_fs tone; gen_frame := Some l |},
   gen_sample l * vol self * 0.95).

(** The committed frequency and the sample index held by a generator. *)
Definition committed (self : PlaybackThread) (tone : generator) : Q :=
  match gen_frame tone with
  | None => ft self
  | Some l => gen_ft l
  end.

Definition sample_clock (tone : generator) : Z :=
  match gen_frame tone with
  | None => 0
  | Some l => gen_x l
  end.

(** The sample that a call of [next] computes, and the one before it. *)
Definition current_sample (sin2pi : Q -> Q) (self : PlaybackThread)
  (tone : generator) : Q :=
  sin2pi (committed self tone * inject_Z (sample_clock tone) / gen_fs tone).

Definition previous_sample (tone : generator) : Q :=
  match gen_frame tone with
  | None => 0
  | Some l => gen_sample l
  end.

(** A stand-in for the sine that is exact at the quarter turns: the values
    of [sin(2*pi*t)] at [t = 0, 1/4, 1/2, 3/4] are [0, 1, 0, -1]. *)
Definition quarter_sine (t : Q) : Q :=
  match (Qfloor (4 * t) mod 4)%Z with
  | 0%Z => 0
  | 1%Z => 1
  | 2%Z => 0
  | _ => -1
  end.

(** ** The playback loop *)

(** [struct.pack("h", v)]: two bytes, little endian, two's complement. *)
Definition pack_h (v : Z) : result (list Z) :=
  if ((-32768 <=? v) && (v <=? 32767))%Z
  then Ok [v mod 256; (v / 256) mod 256]%Z
  else Raise StructError.

Definition unpack_h (bytes : list Z) : option Z :=
  match bytes with
  | [lo; hi] =>
      let u := (lo + 256 * hi)%Z in
      Some (if (u <? 32768)%Z then u else (u - 65536)%Z)
  | _ => None
  end.

(** The thread object, the store of buffer objects, and what has been
    written to the sink [self.dsp]. *)
Record world : Type := {
  self : PlaybackThread;
  heap : gmap loc (list Z);
  dsp : list (list Z)
}.

(** The locals of [run] that the loop uses. *)
Record run_locals : Type := {
  tone : generator;
  record_func : loc      (* the buffer whose [append] was bound *)
}.

(** [PlaybackThread.__init__] *)
Definition init : world :=
  {| self := {| fs := 44100; ft := 20; vol := 1;
                paused := true; alive := true; recording := 0%nat |};
     heap := {[ 0%nat := [] ]};
     dsp := [] |}.

(** The statements of [run] before its loop. *)
Definition run_enter (w : world) : run_locals :=
  {| tone := tone_gen (fs (self w));
     record_func := recording (self w) |}.

Definition append (l : loc) (v : Z) (h : gmap loc (list Z))
  : gmap loc (list Z) :=
  alter (fun buf => buf ++ [v]) l h.

(** One pass through the body of [while self.alive]; the sink is taken to
    report free space. *)
Definition loop_body (sin2pi : Q -> Q) (st : run_locals * world)
  : result (run_locals * world) :=
  let '(l, w) := st in
  if negb (paused (self w)) then
    let '(tone', clean) := next sin2pi (self w) (tone l) in
    let val_f := clean in
    let val_i := py_int (val_f * (2 ^ 15 - 1)) in
    sample ← pack_h val_i;
    Ok ({| tone := tone'; record_func := record_func l |},
        {| self := self w;
           heap := append (record_func l) val_i (heap w);
           dsp := dsp w ++ [sample] |})
  else Ok (l, w).

Definition set_self (s : PlaybackThread) (w : world) : world :=
  {| self := s; heap := heap w; dsp := dsp w |}.

Definition stop (w : world) : world :=
  set_self {| fs := fs (self w); ft := ft (self w); vol := vol (self w);
              paused := paused (self w); alive := false;
              recording := recording (self w) |} w.

Definition set_new_freq (freq vol : Q) (w : world) : world :=
  set_self {| fs := fs (self w); ft := freq; vol := vol;
              paused := paused (self w); alive := alive (self w);
              recording := recording (self w) |} w.

(** [self.threads['playback'].paused = b], from [ThereminApp.pause]. *)
Definition set_paused (b : bool) (w : world) : world :=
  set_self {| fs := fs (self w); ft := ft (self w); vol := vol (self w);
              paused := b; alive := alive (self w);
              recording := recording (self w) |} w.

Definition get_wav_data (w : world) : option (list Z) :=
  heap w !! recording (self w).

(** [self.recording = []]: a new list object, and the attribute rebound. *)
Definition clear_wav_data (w : world) : world :=
  let l := fresh (dom (heap w)) in
  {| self := {| fs := fs (self w); ft := ft (self w); vol := vol (self w);
                paused := paused (self w); alive := alive (self w);
                recording := l |};
     heap := <[ l := [] ]> (heap w);
     dsp := dsp w |}.

(** What the two threads do, interleaved at the granularity of one loop
    iteration. *)
Inductive action : Type :=
  | Iterate
  | SetNewFreq (freq vol : Q)
  | SetPaused (b : bool)
  | ClearWavData
  | Stop.

Definition step (sin2pi : Q -> Q) (a : action) (st : run_locals * world)
  : result (run_locals * world) :=
  match a with
  | Iterate => if alive (self (snd st)) then loop_body sin2pi st else Ok st
  | SetNewFreq freq vol => Ok (fst st, set_new_freq freq vol (snd st))
  | SetPaused b => Ok (fst st, set_paused b (snd st))
  | ClearWavData => Ok (fst st, clear_wav_data (snd st))
  | Stop => Ok (fst st, stop (snd st))
  end.

Fixpoint exec (sin2pi : Q -> Q) (acts : list action) (st : run_locals * world)
  : result (run_locals * world) :=
  match acts with
  | [] => Ok st
  | a :: rest => st' ← step sin2pi a st; exec sin2pi rest st'
  end.

(** A thread that has been started: [__init__], then [run] up to its loop. *)
Definition started : run_locals * world := (run_enter init, init).

(** A concrete run: the thread is started, set to a quarter of the sample
    rate (where [quarter_sine] is the sine), unpaused and left to make
    four passes, and then given a new frequency.  The generator has then
    yielded [0, 1, 0, -1] (times 0.95) and the next sample it computes is
    [sin(2*pi) = 0], coming from -1. *)
Definition quarter_rate_run : list action :=
  [ SetNewFreq 11025 1; SetPaused false; Iterate; Iterate; Iterate; Iterate;
    SetNewFreq 440 1 ].

Definition at_commit : run_locals * world :=
  match exec quarter_sine quarter_rate_run started with
  | Ok st => st
  | Raise _ => started
  end.

(** A run with a volume above 1: the thread is set to a quarter of the
    sample rate at volume 1.1, unpaused, and makes one pass; the next
    sample is the crest of the wave, [sin(pi/2) = 1]. *)
Definition loud_run : list action :=
  [ SetNewFreq 11025 1.1; SetPaused false; Iterate ].

Definition at_crest : run_locals * world :=
  match exec quarter_sine loud_run started with
  | Ok st => st
  | Raise _ => started
  end.

(** ** Further definitions for the quantizer *)

(** The longest ascending prefix of a table. *)
Fixpoint ascending_prefix (l : list Q) : list Q :=
  match l with
  | [] => []
  | a :: rest =>
      a :: match rest with
           | [] => []
           | b :: _ => if Qle_bool a b then ascending_prefix rest else []
           end
  end.

(** Some entry at or above [bound] is followed by a strictly greater one. *)
Fixpoint rises_above (bound : Q) (l : list Q) : bool :=
  match l with
  | [] => false
  | a :: rest =>
      match rest with
      | [] => false
      | b :: _ => (Qle_bool bound a && Qltb a b) || rises_above bound rest
      end
  end.


(** ** Further definitions for the note table *)

(** The candidate notes that [new_tone_filter] draws from the rotated
    table for a scale (its local [key_notes]). *)
Definition key_notes (scale_name : string) (shifted : list Note)
  : result (list Note) :=
  if String.eqb scale_name "chromatic" then Ok NOTES
  else if String.eqb scale_name "diatonic major"
    then Ok (select diatonic_major_intervals shifted)
  else if String.eqb scale_name "pentatonic major"
    then Ok (select pentatonic_major_intervals shifted)
  else if String.eqb scale_name "pentatonic minor"
    then Ok (select pentatonic_minor_intervals shifted)
  else if String.eqb scale_name "blues"
    then Ok (select blues_intervals shifted)
  else Raise NameError.

(** The note table after [n] turns of the loop of [key_changed]. *)
Definition rotated (n : nat) : list Note := skipn n NOTES ++ firstn n NOTES.

(** The name of a note: its label without the octave digits. *)
Definition is_digit (c : ascii) : bool :=
  (48 <=? nat_of_ascii c)%nat && (nat_of_ascii c <=? 57)%nat.

Fixpoint note_name (label : string) : string :=
  match label with
  | EmptyString => EmptyString
  | String c rest =>
      if is_digit c then note_name rest else String c (note_name rest)
  end.

(** A table on which every input in [0, bound] is quantized within its
    ascending prefix. *)
Definition table_safe (bound : Q) (tones : list Q) : bool :=
  rises_above bound (ascending_prefix tones)
  && (Qle_bool 0 (hd 0 tones) && Qle_bool (hd 0 tones) 500000).

(** ** The control path of [ThereminApp] *)

(** The remaining attributes of [ThereminApp] that its handlers use. *)
Record Controls : Type := {
  mode : string;
  app_freq : Q;
  app_vol : Q;
  master_volume : Q;
  freq_max : Q;
  freq_min : Q
}.

(** [math.log10] is a parameter [log10], as [math.sin] is. *)
Definition controls_init (log10 : Q -> Q) : Controls :=
  {| mode := "continuous";
     app_freq := 0;
     app_vol := 0;
     master_volume := log10 7.2;
     freq_max := 2000;
     freq_min := 20 |}.

Definition ui_state : Type := (ThereminApp * Controls)%type.

(** [set_tone]: the new controls, and the call made on the playback
    thread. *)
Definition set_tone (freq vol : Q) (st : ui_state)
  : result (ui_state * list action) :=
  let '(app, ctl) := st in
  closest ← (if String.eqb (mode ctl) "discrete"
             then discrete_tones (tone_filter app) freq
             else Ok freq);
  Ok ((app,
       {| mode := mode ctl;
          app_freq := freq;
          app_vol := vol;
          master_volume := master_volume ctl;
          freq_max := freq_max ctl;
          freq_min := freq_min ctl |}),
      [SetNewFreq closest (vol * master_volume ctl)]).

(** The frequency and the volume that [motion_notify_event] derives from
    the pointer.  The size of a window is at least one pixel each way. *)
Definition pointer_freq (ctl : Controls) (x : Q) (width : positive) : Q :=
  let freq := (x / inject_Z (Z.pos width)) * (freq_max ctl - freq_min ctl)
              + freq_min ctl in
  let freq := if Qltb (freq_max ctl) freq then freq_max ctl else freq in
  if Qltb freq (freq_min ctl) then freq_min ctl else freq.

Definition pointer_vol (log10 : Q -> Q) (y : Q) (height : positive) : Q :=
  let vol := (inject_Z (Z.pos height) - y) / inject_Z (Z.pos height) in
  let vol := if Qltb 1 vol then 1 else vol in
  let vol := if Qltb vol 0 then 0 else vol in
  let vol := 9 * vol + 1 in
  log10 vol.

(** The signals that reach the handlers.  A toggle is the one of the button
    that has become active; [button1] says that the first button is down
    over a widget that has its pixmap. *)
Inductive ui_event : Type :=
  | ScaleToggled (scale_name : string)
  | ModeToggled (mode_name : string)
  | KeyChanged (key_text : string)
  | MasterVolumeChanged (slider : Q)
  | MotionNotify (button1 : bool) (x y : Q) (width height : positive)
  | PauseToggled (active : bool)
  | Destroy.

Definition with_mode (mode_name : string) (ctl : Controls) : Controls :=
  {| mode := mode_name;
     app_freq := app_freq ctl;
     app_vol := app_vol ctl;
     master_volume := master_volume ctl;
     freq_max := freq_max ctl;
     freq_min := freq_min ctl |}.

Definition with_master_volume (v : Q) (ctl : Controls) : Controls :=
  {| mode := mode ctl;
     app_freq := app_freq ctl;
     app_vol := app_vol ctl;
     master_volume := v;
     freq_max := freq_max ctl;
     freq_min := freq_min ctl |}.

(** One handler call: the new state of the application and the calls it
    makes on the playback thread. *)
Definition handle (log10 : Q -> Q) (e : ui_event) (st : ui_state)
  : result (ui_state * list action) :=
  let '(app, ctl) := st in
  match e with
  | ScaleToggled scale_name =>
      app' ← scale_changed scale_name app; Ok ((app', ctl), [])
  | ModeToggled mode_name =>
      app' ← new_tone_filter app; Ok ((app', with_mode mode_name ctl), [])
  | KeyChanged key_text =>
      app' ← key_changed key_text app; Ok ((app', ctl), [])
  | MasterVolumeChanged slider =>
      set_tone (app_freq ctl) (app_vol ctl)
        (app, with_master_volume (log10 slider) ctl)
  | MotionNotify button1 x y width height =>
      if button1
      then set_tone (pointer_freq ctl x width) (pointer_vol log10 y height) st
      else Ok (st, [])
  | PauseToggled active => Ok (st, [SetPaused (negb active)])
  | Destroy => Ok (st, [Stop])
  end.

(** The two threads together: a signal handled, or one pass of the loop. *)
Inductive sys_event : Type :=
  | Ui (e : ui_event)
  | Pass.

Definition system : Type := (ui_state * (run_locals * world))%type.

Definition sys_step (log10 sin2pi : Q -> Q) (e : sys_event) (s : system)
  : result system :=
  match e with
  | Ui e =>
      r ← handle log10 e (fst s);
      pb ← exec sin2pi (snd r) (snd s);
      Ok (fst r, pb)
  | Pass => pb ← step sin2pi Iterate (snd s); Ok (fst s, pb)
  end.

Fixpoint drive (log10 sin2pi : Q -> Q) (es : list sys_event) (s : system)
  : result system :=
  match es with
  | [] => Ok s
  | e :: rest => s' ← sys_step log10 sin2pi e s; drive log10 sin2pi rest s'
  end.

Definition system_init (log10 : Q -> Q) : system :=
  ((app_init, controls_init log10), started).

(** The values the widgets can deliver. *)
Definition event_ok (e : sys_event) : bool :=
  match e with
  | Ui (ScaleToggled scale_name) => existsb (String.eqb scale_name) SCALES
  | Ui (ModeToggled mode_name) =>
      existsb (String.eqb mode_name) ["continuous"; "discrete"]%string
  | Ui (KeyChanged key_text) =>
      match shifts !! key_text with Some _ => true | None => false end
  | Ui (MasterVolumeChanged slider) => Qle_bool 1 slider && Qle_bool slider 10
  | _ => true
  end.

(** A stand-in for [log10] on [1, 10]: the chord from (1, 0) to (10, 1). *)
Definition chord_log (v : Q) : Q := (v - 1) / 9.

(** ** Further definitions for the playback thread *)

(** The two bytes of a short. *)
Definition short_bytes (v : Z) : list Z := [v mod 256; (v / 256) mod 256]%Z.

Definition volume_ok (a : action) : bool :=
  match a with
  | SetNewFreq _ vol => Qle_bool 0 vol && Qle_bool vol 1
  | _ => true
  end.

Definition is_clear (a : action) : bool :=
  match a with
  | ClearWavData => true
  | _ => false
  end.

(** Successive calls of [tone.next()], the thread being as [selfs] tells at
    each call. *)
Fixpoint pull (sin2pi : Q -> Q) (selfs : list PlaybackThread)
  (tone : generator) : generator * list Q :=
  match selfs with
  | [] => (tone, [])
  | self :: rest =>
      let '(tone', out) := next sin2pi self tone in
      let '(tone'', outs) := pull sin2pi rest tone' in
      (tone'', out :: outs)
  end.

(** The loop of [saveas] that writes the frames, from index [i] on;
    [aborted i] tells whether the dialog's response has set [abort[0]] when
    the check at index [i] is made. *)
Fixpoint write_frames (aborted : nat -> bool) (i : nat) (data : list Z)
  : result (list (list Z)) :=
  match data with
  | [] => Ok []
  | sample :: rest =>
      if (i mod 256 =? 0)%nat && aborted i then Ok []
      else
        frame ← pack_h sample;
        frames ← write_frames aborted (S i) rest;
        Ok (frame :: frames)
  end.

(** [saveas] once a file name has been chosen: the frames written to the
    wave file (one channel, two bytes a sample, 44100 frames a second), for
    the recording as it is when the loop starts.  A reference always names
    a buffer, so the second branch is never taken. *)
Definition saveas (aborted : nat -> bool) (w : world)
  : result (list (list Z)) :=
  match get_wav_data w with
  | Some data => write_frames aborted 0 data
  | None => Ok []
  end.

(** ** What the handlers keep *)

(** The tables of the application are those of its scale and of a key. *)
Definition app_ok (app : ThereminApp) : Prop :=
  In (scale app) SCALES /\
  (exists n, (n < 12)%nat /\ shifted_notes app = rotated n) /\
  key_notes (scale app) (shifted_notes app) = Ok (discrete_notes app) /\
  root_notes app = select [0%nat] (shifted_notes app) /\
  tone_filter app = just_freqs (discrete_notes app).

Definition controls_ok (ctl : Controls) : Prop :=
  (0 <= master_volume ctl /\ master_volume ctl <= 1) /\
  (0 <= app_vol ctl /\ app_vol ctl <= 1) /\
  (0 <= app_freq ctl /\ app_freq ctl <= 2000) /\
  freq_min ctl = 20 /\ freq_max ctl = 2000.

(** The thread's volume is in range, the attribute [recording] still names
    the buffer bound by [record_func], and the sink has received the
    packing of what that buffer holds. *)
Definition playback_ok (st : run_locals * world) : Prop :=
  (0 <= vol (self (snd st)) /\ vol (self (snd st)) <= 1) /\
  recording (self (snd st)) = record_func (fst st) /\
  exists buf,
    heap (snd st) !! record_func (fst st) = Some buf /\
    dsp (snd st) = map short_bytes buf /\
    Forall (fun v => (-31128 <= v <= 31128)%Z) buf.

Definition system_ok (s : system) : Prop :=
  app_ok (fst (fst s)) /\ controls_ok (snd (fst s)) /\ playback_ok (snd s).

(** A session used as a concrete case: play is pressed, the discrete mode,
    the key of A and the blues scale are chosen, the pointer is dragged,
    the master volume is lowered, and the window is closed, with loop
    passes in between. *)
Definition session : list sys_event :=
  [ Ui (PauseToggled true); Ui (ModeToggled "discrete"); Ui (KeyChanged "A");
    Ui (ScaleToggled "blues"); Ui (MotionNotify true 150 40 300 100);
    Pass; Pass; Ui (MasterVolumeChanged 3); Pass; Ui Destroy; Pass ].

Definition after_session : system :=
  match drive chord_log quarter_sine session (system_init chord_log) with
  | Ok s => s
  | Raise _ => system_init chord_log
  end.

(** * Facts *)

(** ** Comparisons *)

Lemma Qltb_lt (a b : Q) : Qltb a b = true <-> a < b.
Proof.
  unfold Qltb. rewrite Qlt_alt. destruct (a ?= b); intuition congruence.
Qed.

Lemma Qltb_ge (a b : Q) : Qltb a b = false <-> b <= a.
Proof.
  split; intros H.
  - apply Qnot_lt_le. intros Hlt. apply Qltb_lt in Hlt. congruence.
  - destruct (Qltb a b) eqn:E; [|reflexivity].
    apply Qltb_lt in E. exfalso. apply (Qlt_not_le _ _ E H).
Qed.

Lemma Qabs_diff_sym (a b : Q) : Qabs (a - b) == Qabs (b - a).
Proof.
  rewrite <- (Qabs_opp (b - a)). apply Qabs_wd. ring.
Qed.

(** Past the input, errors grow along an ascending table. *)
Lemma err_grows (x c a b : Q) :
  c <= a -> a <= b -> Qabs (x - c) < Qabs (x - a) -> Qabs (x - a) <= Qabs (x - b).
Proof.
  intros Hca Hab.
  apply (Qabs_case (x - c)); apply (Qabs_case (x - a));
    apply (Qabs_case (x - b)); intros; lra.
Qed.

(** ** The quantizer *)

Lemma scan_tie (x : Q) (i : nat) (tone : Q) (rest : list Q) (c e : Q) :
  Qabs (x - tone) == e ->
  scan x i (tone :: rest) c e = scan x (S i) rest c e.
Proof.
  intros Htie. cbn [scan].
  assert (H1 : Qltb (Qabs (x - tone)) e = false) by (apply Qltb_ge; lra).
  assert (H2 : Qltb e (Qabs (x - tone)) = false) by (apply Qltb_ge; lra).
  now rewrite H1, H2.
Qed.

Lemma no_break_cons (x tone : Q) (pre : list Q) (c e c' e' : Q) :
  running x [tone] c e = (c', e') ->
  ~ e < Qabs (x - tone) ->
  no_break x pre c' e' ->
  no_break x (tone :: pre) c e.
Proof.
  intros Hrun Hhead Htail p1 t p2 Heq.
  destruct p1 as [|p p1]; cbn [app] in Heq; injection Heq as E1 E2; subst.
  - exact Hhead.
  - specialize (Htail p1 t p2 eq_refl).
    cbn [running] in Hrun |- *.
    destruct (Qltb _ e); injection Hrun as <- <-; exact Htail.
Qed.

Lemma scan_breaks_at_first_excess (x : Q) (tones : list Q) :
  forall i c e k,
    broke_at (scan x i tones c e) = Some k ->
    exists pre tone post,
      tones = pre ++ tone :: post /\ k = (i + length pre)%nat /\
      snd (running x pre c e) < Qabs (x - tone) /\ no_break x pre c e.
Proof.
  induction tones as [|tone rest IH]; intros i c e k; cbn [scan].
  - discriminate.
  - destruct (Qltb (Qabs (x - tone)) e) eqn:Hlt.
    + intros Hk. destruct (IH _ _ _ _ Hk) as (pre & t & post & -> & -> & Hex & Hnb).
      exists (tone :: pre), t, post. cbn [running app length]. rewrite Hlt.
      repeat split; [lia | exact Hex |].
      eapply no_break_cons; [cbn [running]; rewrite Hlt; reflexivity | | exact Hnb].
      apply Qltb_lt in Hlt. lra.
    + destruct (Qltb e (Qabs (x - tone))) eqn:Hgt.
      * cbn [broke_at]. intros [= <-]. exists [], tone, rest.
        cbn [running app length snd].
        repeat split; [lia | now apply Qltb_lt |].
        intros [|? ?] ? ? Heq; discriminate Heq.
      * intros Hk. destruct (IH _ _ _ _ Hk) as (pre & t & post & -> & -> & Hex & Hnb).
        exists (tone :: pre), t, post. cbn [running app length]. rewrite Hlt.
        repeat split; [lia | exact Hex |].
        eapply no_break_cons; [cbn [running]; rewrite Hlt; reflexivity | | exact Hnb].
        apply Qltb_ge in Hgt. lra.
Qed.

Lemma first_excess_breaks (x : Q) (pre : list Q) :
  forall i c e tone post,
    snd (running x pre c e) < Qabs (x - tone) -> no_break x pre c e ->
    broke_at (scan x i (pre ++ tone :: post) c e) = Some (i + length pre)%nat.
Proof.
  induction pre as [|p pre IH]; intros i c e tone post Hex Hnb;
    cbn [running app length scan snd] in *.
  - assert (H1 : Qltb (Qabs (x - tone)) e = false) by (apply Qltb_ge; lra).
    apply Qltb_lt in Hex. rewrite H1, Hex. cbn [broke_at]. f_equal. lia.
  - assert (Hp : Qltb e (Qabs (x - p)) = false).
    { apply Qltb_ge. apply Qnot_lt_le. exact (Hnb [] p pre eq_refl). }
    assert (Htl : forall c' e', running x [p] c e = (c', e') -> no_break x pre c' e').
    { intros c' e' Hrun p1 t p2 ->. specialize (Hnb (p :: p1) t p2 eq_refl).
      cbn [running app] in Hrun, Hnb.
      destruct (Qltb (Qabs (x - p)) e); injection Hrun as <- <-; exact Hnb. }
    cbn [running] in Htl.
    destruct (Qltb (Qabs (x - p)) e) eqn:Hlt.
    + rewrite IH; [f_equal; lia | exact Hex | now apply Htl].
    + rewrite Hp. rewrite IH; [f_equal; lia | exact Hex | now apply Htl].
Qed.

Lemma scan_mean (x : Q) (tones : list Q) :
  forall i c e,
    let r := scan x i tones c e in
    match broke_at r with
    | Some k => (i <= k)%nat /\
                mean r = if (0 <? k)%nat then (x - closest r) / 2 else 0
    | None => mean r = 0
    end.
Proof.
  induction tones as [|tone rest IH]; intros i c e; cbn [scan].
  - reflexivity.
  - destruct (Qltb (Qabs (x - tone)) e).
    + specialize (IH (S i) tone (Qabs (x - tone))). cbv zeta in IH.
      destruct (broke_at _); [split; [lia | tauto] | exact IH].
    + destruct (Qltb e (Qabs (x - tone))).
      * cbn. split; [lia | reflexivity].
      * specialize (IH (S i) c e). cbv zeta in IH.
        destruct (broke_at _); [split; [lia | tauto] | exact IH].
Qed.

(** C2: in the scan of [discrete_tones] a tie neither updates [closest] nor
    ends the loop; the loop ends at an index exactly when that index is the
    first whose error strictly exceeds the running error.  On the table
    [100, 200, 300] and the input 150 the loop reaches index 2 with
    [closest = 100] and [err = 50], breaks there, and the filter returns
    [100 + (150 - 100)/2 = 125]. *)
Theorem C2_tie_continues_excess_breaks :
  (forall x i tone rest c e,
      Qabs (x - tone) == e ->
      scan x i (tone :: rest) c e = scan x (S i) rest c e) /\
  (forall x i tones c e k,
      broke_at (scan x i tones c e) = Some k <->
      exists pre tone post,
        tones = pre ++ tone :: post /\ k = (i + length pre)%nat /\
        snd (running x pre c e) < Qabs (x - tone) /\ no_break x pre c e) /\
  running 150 [100; 200] 100 500000 = (100, Qabs (150 - 100)) /\
  broke_at (scan 150 0 [100; 200; 300] 100 500000) = Some 2%nat /\
  filt [100; 200; 300] 150 = Ok (100 + (150 - 100) / 2) /\
  100 + (150 - 100) / 2 == 125.
Proof.
  split; [exact scan_tie|].
  split.
  { intros x i tones c e k. split.
    - apply scan_breaks_at_first_excess.
    - intros (pre & tone & post & -> & -> & Hex & Hnb).
      now apply first_excess_breaks. }
  repeat split; reflexivity.
Qed.

(** The loop on a table whose entry after [pre] is the first to exceed the
    running error: it ends there, on the running [closest]. *)
Lemma scan_at_first_excess (x : Q) (pre : list Q) :
  forall i c e tone post,
    no_break x pre c e ->
    snd (running x pre c e) < Qabs (x - tone) ->
    scan x i (pre ++ tone :: post) c e =
    {| closest := fst (running x pre c e);
       err := snd (running x pre c e);
       mean := if (0 <? i + length pre)%nat
               then (x - fst (running x pre c e)) / 2 else 0;
       broke_at := Some (i + length pre)%nat |}.
Proof.
  induction pre as [|p pre IH]; intros i c e tone post Hnb Hex;
    cbn [running app length scan fst snd] in *.
  - assert (H1 : Qltb (Qabs (x - tone)) e = false) by (apply Qltb_ge; lra).
    apply Qltb_lt in Hex. rewrite H1, Hex, Nat.add_0_r. reflexivity.
  - assert (Hp : Qltb e (Qabs (x - p)) = false).
    { apply Qltb_ge. apply Qnot_lt_le. exact (Hnb [] p pre eq_refl). }
    assert (Htl : forall c' e', running x [p] c e = (c', e') ->
                                no_break x pre c' e').
    { intros c' e' Hrun p1 t p2 ->. specialize (Hnb (p :: p1) t p2 eq_refl).
      cbn [running app] in Hrun, Hnb.
      destruct (Qltb (Qabs (x - p)) e); injection Hrun as <- <-; exact Hnb. }
    cbn [running] in Htl.
    replace (i + S (length pre))%nat with (S i + length pre)%nat by lia.
    destruct (Qltb (Qabs (x - p)) e) eqn:Hlt.
    + apply IH; [now apply Htl | exact Hex].
    + rewrite Hp. apply IH; [now apply Htl | exact Hex].
Qed.

(** The loop on a table none of whose entries exceeds the running error on
    its turn: it runs to the end. *)
Lemma scan_without_break (x : Q) (tones : list Q) :
  forall i c e,
    no_break x tones c e ->
    scan x i tones c e =
    {| closest := fst (running x tones c e);
       err := snd (running x tones c e);
       mean := 0;
       broke_at := None |}.
Proof.
  induction tones as [|p rest IH]; intros i c e Hnb; cbn [running scan].
  - reflexivity.
  - assert (Hp : Qltb e (Qabs (x - p)) = false).
    { apply Qltb_ge. apply Qnot_lt_le. exact (Hnb [] p rest eq_refl). }
    assert (Htl : forall c' e', running x [p] c e = (c', e') ->
                                no_break x rest c' e').
    { intros c' e' Hrun p1 t p2 ->. specialize (Hnb (p :: p1) t p2 eq_refl).
      cbn [running app] in Hrun, Hnb.
      destruct (Qltb (Qabs (x - p)) e); injection Hrun as <- <-; exact Hnb. }
    cbn [running] in Htl.
    destruct (Qltb (Qabs (x - p)) e) eqn:Hlt.
    + apply IH. now apply Htl.
    + rewrite Hp. apply IH. now apply Htl.
Qed.

(** Either some entry is the first to exceed the running error, or none
    does. *)
Lemma excess_or_none (x : Q) (tones : list Q) :
  forall c e,
    (exists pre tone post,
        tones = pre ++ tone :: post /\ no_break x pre c e /\
        snd (running x pre c e) < Qabs (x - tone)) \/
    no_break x tones c e.
Proof.
  assert (Hnil : forall c e, no_break x [] c e).
  { intros c e [|? ?] ? ? Heq; discriminate Heq. }
  induction tones as [|p rest IH]; intros c e.
  - right. apply Hnil.
  - destruct (Qlt_le_dec e (Qabs (x - p))) as [Hex | Hle].
    + left. exists [], p, rest. repeat split; [apply Hnil | exact Hex].
    + assert (Hno : ~ e < Qabs (x - p)) by lra.
      destruct (running x [p] c e) as [c' e'] eqn:Hrun.
      assert (Hcons : forall l, running x (p :: l) c e = running x l c' e').
      { intros l. cbn [running] in Hrun |- *.
        destruct (Qltb (Qabs (x - p)) e); injection Hrun as <- <-; reflexivity. }
      destruct (IH c' e') as [(pre & tone & post & -> & Hnb & Hex) | Hnb].
      * left. exists (p :: pre), tone, post.
        split; [reflexivity|].
        split; [now apply (no_break_cons x p pre c e c' e')|].
        now rewrite Hcons.
      * right. now apply (no_break_cons x p rest c e c' e').
Qed.

(** C4: the filter returns [closest + (x - closest)/2] when the loop ended
    by the [break] at an index greater than 0, and [closest] unchanged in
    every other case (no [break], or [break] at index 0); on a table of one
    element it returns that element for every input.  The cases are told
    apart on the table itself: the [break] is at the first entry whose
    error exceeds the running error, [closest] being the running closest
    value before that entry; without such an entry the loop runs to the
    end. *)
Theorem C4_partial_snap_rule :
  (forall first rest x,
      let r := scan x 0 (first :: rest) first 500000 in
      filt (first :: rest) x = Ok (closest r + mean r) /\
      match broke_at r with
      | Some (S _) => mean r = (x - closest r) / 2
      | _ => mean r = 0 /\ closest r + mean r == closest r
      end) /\
  (forall tone x, exists v, filt [tone] x = Ok v /\ v == tone) /\
  (forall first rest x pre tone post,
      first :: rest = pre ++ tone :: post ->
      no_break x pre first 500000 ->
      snd (running x pre first 500000) < Qabs (x - tone) ->
      broke_at (scan x 0 (first :: rest) first 500000)
        = Some (length pre) /\
      filt (first :: rest) x =
        Ok (fst (running x pre first 500000)
            + if (0 <? length pre)%nat
              then (x - fst (running x pre first 500000)) / 2
              else 0)) /\
  (forall first rest x,
      no_break x (first :: rest) first 500000 ->
      broke_at (scan x 0 (first :: rest) first 500000) = None /\
      filt (first :: rest) x =
        Ok (fst (running x (first :: rest) first 500000) + 0)) /\
  (forall tones x c e,
      (exists pre tone post,
          tones = pre ++ tone :: post /\ no_break x pre c e /\
          snd (running x pre c e) < Qabs (x - tone)) \/
      no_break x tones c e) /\
  filt [100; 200; 300] 150 = Ok (100 + (150 - 100) / 2) /\
  filt [100; 200; 300] 600200 = Ok (100 + 0) /\
  filt [100; 200; 300] 450 = Ok (300 + 0) /\
  filt [100; 200; 300] 160 = Ok (200 + (160 - 200) / 2).
Proof.
  split.
  { intros first rest x r. split; [reflexivity|].
    pose proof (scan_mean x (first :: rest) 0 first 500000) as H.
    cbv zeta in H. fold r in H.
    destruct (broke_at r) as [[|k]|].
    + destruct H as [_ H]. cbn [Nat.ltb Nat.leb] in H.
      rewrite H. split; [reflexivity | ring].
    + destruct H as [_ H]. exact H.
    + rewrite H. split; [reflexivity | ring]. }
  split.
  { intros tone x. unfold filt. cbn [scan].
    destruct (Qltb (Qabs (x - tone)) 500000).
    + eexists; split; [reflexivity|]. cbn [closest mean]. ring.
    + destruct (Qltb 500000 (Qabs (x - tone)));
        (eexists; split; [reflexivity|]); cbn [closest mean Nat.ltb Nat.leb]; ring. }
  split.
  { intros first rest x pre tone post Hsplit Hnb Hex.
    unfold filt. rewrite Hsplit.
    rewrite (scan_at_first_excess x pre 0 first 500000 tone post Hnb Hex).
    cbn [closest mean broke_at]. rewrite Nat.add_0_l. split; reflexivity. }
  split.
  { intros first rest x Hnb. unfold filt.
    rewrite (scan_without_break x (first :: rest) 0 first 500000 Hnb).
    split; reflexivity. }
  split; [intros tones x c e; apply excess_or_none|].
  repeat split; reflexivity.
Qed.

(** C8: an input farther than the sentinel 500000 from the first tone makes
    the loop break at index 0, and the filter returns the first tone with
    no adjustment, whatever the rest of the table is. *)
Theorem C8_sentinel_break (first : Q) (rest : list Q) (x : Q) :
  500000 < Qabs (x - first) ->
  let r := scan x 0 (first :: rest) first 500000 in
  broke_at r = Some 0%nat /\ closest r = first /\ mean r = 0 /\
  exists v, filt (first :: rest) x = Ok v /\ v == first.
Proof.
  intros Hfar r. subst r. unfold filt. cbn [scan].
  assert (H1 : Qltb (Qabs (x - first)) 500000 = false) by (apply Qltb_ge; lra).
  apply Qltb_lt in Hfar. rewrite H1, Hfar. cbn.
  repeat split. eexists; split; [reflexivity | ring].
Qed.

Lemma C8_sentinel_break_witness :
  500000 < Qabs (600000 - 16) /\
  broke_at (scan 600000 0 [16; 17; 599999] 16 500000) = Some 0%nat.
Proof.
  split; [reflexivity|].
  apply (C8_sentinel_break 16 [17; 599999] 600000). reflexivity.
Defined.

(** *** Nearest-neighbour soundness *)

Lemma ascending_cons (a : Q) (l : list Q) :
  ascending (a :: l) = true ->
  ascending l = true /\ forall t, In t l -> a <= t.
Proof.
  revert a. induction l as [|b l IH]; intros a H.
  - split; [reflexivity | intros t []].
  - cbn [ascending] in H. apply andb_prop in H as [Hab Hl].
    apply Qle_bool_iff in Hab.
    split; [exact Hl|].
    intros t [<- | Ht]; [exact Hab|].
    destruct (IH b Hl) as [_ Hb]. specialize (Hb t Ht). lra.
Qed.

Lemma ascending_skip (a b : Q) (l : list Q) :
  ascending (a :: b :: l) = true -> ascending (a :: l) = true.
Proof.
  intros H. cbn [ascending] in H. apply andb_prop in H as [Hab Hl].
  destruct l as [|c l]; [reflexivity|].
  cbn [ascending] in Hl |- *. apply andb_prop in Hl as [Hbc Hl].
  apply Qle_bool_iff in Hab, Hbc.
  apply andb_true_intro. split; [|exact Hl].
  apply Qle_bool_iff. lra.
Qed.

(** On an ascending table, from a running [closest] that is below the rest
    of the table and whose error is [err], the loop ends on a [closest]
    that is at least as near to [x] as the running one and as every
    remaining entry. *)
Lemma scan_nearest (x : Q) (rest : list Q) :
  forall i c e,
    e == Qabs (x - c) -> ascending (c :: rest) = true ->
    let r := scan x i rest c e in
    Qabs (x - closest r) <= Qabs (x - c) /\
    (forall t, In t rest -> Qabs (x - closest r) <= Qabs (x - t)) /\
    (mean r = 0 \/ mean r = (x - closest r) / 2).
Proof.
  induction rest as [|tone rest IH]; intros i c e He Hasc; cbn [scan].
  - cbn. repeat split; [lra | intros t [] | now left].
  - destruct (ascending_cons _ _ Hasc) as [Hrest Hge].
    destruct (Qltb (Qabs (x - tone)) e) eqn:Hlt.
    + apply Qltb_lt in Hlt.
      destruct (IH (S i) tone (Qabs (x - tone)) (Qeq_refl _) Hrest)
        as (H1 & H2 & H3).
      repeat split; [lra | | exact H3].
      intros t [<- | Ht]; [exact H1 | now apply H2].
    + apply Qltb_ge in Hlt.
      destruct (Qltb e (Qabs (x - tone))) eqn:Hgt.
      * apply Qltb_lt in Hgt. cbn [closest mean].
        repeat split; [lra | | destruct (0 <? i)%nat; auto].
        assert (Hfirst : Qabs (x - c) < Qabs (x - tone)) by lra.
        intros t [<- | Ht]; [lra|].
        destruct (ascending_cons _ _ Hrest) as [_ Hge'].
        pose proof (err_grows x c tone t (Hge tone (or_introl eq_refl))
                      (Hge' t Ht) Hfirst).
        lra.
      * apply Qltb_ge in Hgt.
        destruct (IH (S i) c e He (ascending_skip _ _ _ Hasc))
          as (H1 & H2 & H3).
        repeat split; [exact H1 | | exact H3].
        intros t [<- | Ht]; [lra | now apply H2].
Qed.

Lemma snap_within (x c m : Q) :
  m = 0 \/ m = (x - c) / 2 -> Qabs (c + m - x) <= Qabs (x - c).
Proof.
  intros [-> | ->].
  - rewrite (Qabs_diff_sym x c). apply Qle_lteq. right.
    apply Qabs_wd. ring.
  - unfold Qdiv. change (/ 2) with (1 # 2).
    apply (Qabs_case (x - c)); intros H; apply Qabs_Qle_condition;
      split; lra.
Qed.

Lemma In_insert_sorted (e d : Q) (l : list Q) :
  In d (insert_sorted e l) -> d = e \/ In d l.
Proof.
  induction l as [|h l IH]; cbn [insert_sorted].
  - intros [<- | []]. now left.
  - destruct (Qle_bool e h).
    + intros [<- | H]; [now left | now right].
    + intros [<- | H]; [right; now left|].
      destruct (IH H) as [-> | H']; [now left | right; now right].
Qed.

Lemma In_sort_errors (d : Q) (l : list Q) : In d (sort_errors l) -> In d l.
Proof.
  induction l as [|e l IH]; cbn [sort_errors fold_right]; [tauto|].
  intros H. apply In_insert_sorted in H as [-> | H]; [now left|].
  right. now apply IH.
Qed.

(** The filter's output is at least as near to [x] as every table entry,
    when the first entry is within the sentinel of [x]. *)
Lemma filt_nearest (first : Q) (rest : list Q) (x : Q) :
  ascending (first :: rest) = true ->
  Qabs (x - first) <= 500000 ->
  exists v, filt (first :: rest) x = Ok v /\
    forall t, In t (first :: rest) -> Qabs (v - x) <= Qabs (x - t).
Proof.
  intros Hasc Hnear. unfold filt. eexists. split; [reflexivity|].
  cbn [scan].
  assert (Hgt : Qltb 500000 (Qabs (x - first)) = false)
    by (apply Qltb_ge; exact Hnear).
  rewrite Hgt.
  set (e := if Qltb (Qabs (x - first)) 500000 then Qabs (x - first) else 500000).
  assert (He : e == Qabs (x - first)).
  { subst e. destruct (Qltb (Qabs (x - first)) 500000) eqn:Hlt; [reflexivity|].
    apply Qltb_ge in Hlt. lra. }
  assert (Hscan : (if Qltb (Qabs (x - first)) 500000
                   then scan x 1 rest first (Qabs (x - first))
                   else scan x 1 rest first 500000) = scan x 1 rest first e).
  { subst e. now destruct (Qltb (Qabs (x - first)) 500000). }
  rewrite Hscan.
  destruct (scan_nearest x rest 1 first e He Hasc) as (H1 & H2 & H3).
  pose proof (snap_within x _ _ H3) as Hsnap.
  intros t [<- | Ht]; [lra|].
  specialize (H2 t Ht). lra.
Qed.

(** The claim of C3 as it is worded fails on a table whose first entry is
    farther than the sentinel from the input: on [0, 1000000, 1000001] and
    the input 1000000, which is an entry of the table, the loop breaks at
    index 0 and the filter returns 0, at distance 1000000, while the
    second-nearest entry is at distance 1. *)
Lemma C3_sentinel_counterexample :
  ascending [0; 1000000; 1000001] = true /\
  in_span [0; 1000000; 1000001] 1000000 /\
  filt [0; 1000000; 1000001] 1000000 = Ok 0 /\
  second_nearest_err [0; 1000000; 1000001] 1000000 = Some 1 /\
  ~ Qabs (0 - 1000000) <= 1.
Proof.
  repeat split; try reflexivity; try (now vm_compute).
Qed.

(** C3 (amended): for every non-empty ascending table and every input
    within the table's span whose distance to the first entry is at most
    the sentinel 500000, the value returned by the filter is no farther
    from the input than the second-nearest table entry. *)
Theorem C3_within_second_nearest (tones : list Q) (x : Q) :
  tones <> [] -> ascending tones = true -> in_span tones x ->
  Qabs (x - hd 0 tones) <= 500000 ->
  exists v, filt tones x = Ok v /\
    forall d, second_nearest_err tones x = Some d -> Qabs (v - x) <= d.
Proof.
  intros Hne Hasc _ Hnear.
  destruct tones as [|first rest]; [congruence|]. cbn [hd] in Hnear.
  destruct (filt_nearest first rest x Hasc Hnear) as (v & Hv & Hmin).
  exists v. split; [exact Hv|].
  intros d Hd. unfold second_nearest_err in Hd.
  apply nth_error_In, In_sort_errors in Hd.
  unfold errors in Hd. apply in_map_iff in Hd as (t & <- & Ht).
  now apply Hmin.
Qed.

Lemma C3_within_second_nearest_witness :
  exists v, filt [100; 200; 300] 150 = Ok v /\
    forall d, second_nearest_err [100; 200; 300] 150 = Some d ->
              Qabs (v - 150) <= d.
Proof.
  apply (C3_within_second_nearest [100; 200; 300] 150).
  - discriminate.
  - reflexivity.
  - split; vm_compute; discriminate.
  - vm_compute; discriminate.
Defined.

(** ** The tone generator *)

Lemma Qneqb_neq (a b : Q) : Qneqb a b = true <-> ~ a == b.
Proof.
  unfold Qneqb. rewrite negb_true_iff.
  split.
  - intros H Heq. apply Qeq_bool_iff in Heq. congruence.
  - intros H. destruct (Qeq_bool a b) eqn:E; [|reflexivity].
    apply Qeq_bool_iff in E. contradiction.
Qed.

Lemma commits_spec (ft self_ft sample prev_sample : Q) :
  commits ft self_ft sample prev_sample = true <->
  ~ ft == self_ft /\ (-0.01 < sample /\ sample < 0.01) /\ prev_sample < sample.
Proof.
  unfold commits. rewrite !andb_true_iff, Qneqb_neq, !Qltb_lt. tauto.
Qed.

Section Generator.

Variable sin2pi : Q -> Q.

Lemma gen_compute_start (self : PlaybackThread) (tone : generator) :
  gen_compute sin2pi (gen_fs tone) (gen_start self tone) =
  {| gen_x := sample_clock tone;
     gen_ft := committed self tone;
     gen_sample := current_sample sin2pi self tone;
     gen_prev_sample := previous_sample tone |}.
Proof.
  unfold gen_compute, gen_start, current_sample, previous_sample, committed,
    sample_clock.
  destruct (gen_frame tone); reflexivity.
Qed.

(** C5 (amended): one call of the generator changes the committed
    frequency at most once, to the pending frequency, and only when the
    pending frequency differs from the committed one, the sample just
    computed (not the previous one) lies strictly within the ±0.01
    threshold, and the previous sample is strictly less than it; the [if]
    statement sets the sample clock to 0 exactly when it sets the committed
    frequency to the pending one, and leaves both as they were otherwise. *)
Theorem C5_commit_rule (self : PlaybackThread) (tone : generator) :
  let old := committed self tone in
  let cur := current_sample sin2pi self tone in
  let prev := previous_sample tone in
  let l := gen_compute sin2pi (gen_fs tone) (gen_start self tone) in
  let fired := commits old (ft self) cur prev in
  let tone' := fst (next sin2pi self tone) in
  (fired = true <->
   ~ old == ft self /\ (-0.01 < cur /\ cur < 0.01) /\ prev < cur) /\
  gen_commit self l =
    (if fired
     then {| gen_x := 0; gen_ft := ft self;
             gen_sample := cur; gen_prev_sample := prev |}
     else l) /\
  (fired = false ->
   gen_ft (gen_commit self l) = old /\
   gen_x (gen_commit self l) = sample_clock tone) /\
  committed self tone' = (if fired then ft self else old) /\
  sample_clock tone' = ((if fired then 0 else sample_clock tone) + 1)%Z /\
  (~ committed self tone' == old -> fired = true).
Proof.
  intros old cur prev l fired tone'.
  assert (Hl : l = {| gen_x := sample_clock tone; gen_ft := old;
                      gen_sample := cur; gen_prev_sample := prev |})
    by apply gen_compute_start.
  assert (Hc : gen_commit self l =
               if fired
               then {| gen_x := 0; gen_ft := ft self;
                       gen_sample := cur; gen_prev_sample := prev |}
               else l).
  { unfold gen_commit. rewrite Hl. reflexivity. }
  split; [apply commits_spec|].
  split; [exact Hc|].
  assert (Hn : tone' = {| gen_fs := gen_fs tone;
                          gen_frame := Some (gen_advance (gen_commit self l)) |})
    by reflexivity.
  assert (Hcm : committed self tone' = gen_ft (gen_commit self l))
    by (rewrite Hn; reflexivity).
  assert (Hck : sample_clock tone' = (gen_x (gen_commit self l) + 1)%Z)
    by (rewrite Hn; reflexivity).
  rewrite Hcm, Hck, Hc, Hl.
  destruct fired; cbn [gen_ft gen_x].
  - split; [intros Hf; discriminate Hf|].
    split; [reflexivity|]. split; [reflexivity|]. reflexivity.
  - split; [intros _; split; reflexivity|].
    split; [reflexivity|]. split; [reflexivity|].
    intros Hne. exfalso. apply Hne. reflexivity.
Qed.

(** C10: at a step where the commit happens the generator still yields the
    sample computed from the old committed frequency; the frame then holds
    the new frequency and the index 1, so the sample computed by the next
    call is the one of the new frequency at index 1. *)
Theorem C10_commit_step (self self' : PlaybackThread) (tone : generator) :
  commits (committed self tone) (ft self) (current_sample sin2pi self tone)
          (previous_sample tone) = true ->
  let tone1 := fst (next sin2pi self tone) in
  snd (next sin2pi self tone) =
    sin2pi (committed self tone * inject_Z (sample_clock tone) / gen_fs tone)
    * vol self * 0.95 /\
  gen_x (gen_commit self (gen_compute sin2pi (gen_fs tone)
                            (gen_start self tone))) = 0%Z /\
  committed self' tone1 = ft self /\
  sample_clock tone1 = 1%Z /\
  current_sample sin2pi self' tone1 = sin2pi (ft self * inject_Z 1 / gen_fs tone) /\
  snd (next sin2pi self' tone1) =
    sin2pi (ft self * inject_Z 1 / gen_fs tone) * vol self' * 0.95.
Proof.
  intros Hfire tone1. subst tone1.
  unfold next. rewrite gen_compute_start.
  unfold gen_commit. cbn [gen_ft gen_sample gen_prev_sample].
  rewrite Hfire. cbn.
  repeat split. destruct (commits (ft self) _ _ _); reflexivity.
Qed.

End Generator.

(** ** The playback loop *)

Lemma py_int_bound (f : Q) (b : Z) :
  (0 <= b)%Z -> - (inject_Z b + 1) < f -> f < inject_Z b + 1 ->
  (- b <= py_int f <= b)%Z.
Proof.
  intros Hb Hlo Hhi. destruct f as [n d]. unfold py_int. cbn [Qnum Qden].
  unfold Qlt in Hlo, Hhi. cbn in Hlo, Hhi.
  assert (Hd : (0 < Z.pos d)%Z) by lia.
  destruct (Z.le_gt_cases 0 n) as [Hn | Hn].
  - rewrite Z.quot_div_nonneg by lia.
    split.
    + pose proof (Z.div_pos n (Z.pos d) Hn Hd). lia.
    + assert ((n / Z.pos d < b + 1)%Z); [|lia].
      apply Z.div_lt_upper_bound; lia.
  - replace n with (- - n)%Z by lia.
    rewrite Z.quot_opp_l by lia.
    rewrite Z.quot_div_nonneg by lia.
    split.
    + assert ((- n / Z.pos d < b + 1)%Z); [|lia].
      apply Z.div_lt_upper_bound; lia.
    + assert (0 <= - n / Z.pos d)%Z by (apply Z.div_pos; lia). lia.
Qed.

Lemma pack_unpack (v : Z) (bytes : list Z) :
  pack_h v = Ok bytes -> unpack_h bytes = Some v.
Proof.
  unfold pack_h.
  destruct ((-32768 <=? v) && (v <=? 32767))%Z eqn:Hr; [|discriminate].
  apply andb_prop in Hr as [Hlo Hhi].
  apply Z.leb_le in Hlo, Hhi.
  intros [= <-]. unfold unpack_h. f_equal.
  assert (Hu : (v mod 256 + 256 * ((v / 256) mod 256) = v mod 65536)%Z).
  { rewrite (Z.mod_eq (v / 256) 256) by lia.
    rewrite Z.div_div by lia.
    rewrite (Z.mod_eq v 256), (Z.mod_eq v 65536) by lia.
    change (256 * 256)%Z with 65536%Z. lia. }
  rewrite Hu.
  destruct (Z.le_gt_cases 0 v) as [Hv | Hv].
  - rewrite Z.mod_small by lia.
    destruct (v <? 32768)%Z eqn:E; [reflexivity|].
    apply Z.ltb_ge in E. lia.
  - assert (Hm : (v mod 65536 = v + 65536)%Z).
    { symmetry. apply (Z.mod_unique v 65536 (-1)); lia. }
    rewrite Hm.
    destruct (v + 65536 <? 32768)%Z eqn:E; [|lia].
    apply Z.ltb_lt in E. lia.
Qed.

Section Playback.

Variable sin2pi : Q -> Q.
Hypothesis sin2pi_bounded : forall t, -1 <= sin2pi t /\ sin2pi t <= 1.

Lemma next_output (self : PlaybackThread) (tone : generator) :
  snd (next sin2pi self tone) = current_sample sin2pi self tone * vol self * 0.95.
Proof.
  unfold next. rewrite gen_compute_start. unfold gen_commit.
  cbn [gen_ft gen_sample gen_prev_sample snd gen_advance].
  now destruct (commits _ _ _ _).
Qed.

Lemma next_bounded (self : PlaybackThread) (tone : generator) :
  0 <= vol self ->
  Qabs (snd (next sin2pi self tone)) <= 0.95 * vol self.
Proof.
  intros Hv. rewrite next_output. unfold current_sample.
  destruct (sin2pi_bounded
              (committed self tone * inject_Z (sample_clock tone) / gen_fs tone))
    as [Hlo Hhi].
  set (a := sin2pi _) in *.
  apply Qabs_Qle_condition. split; nra.
Qed.

Lemma sample_in_range (self : PlaybackThread) (tone : generator) :
  0 <= vol self -> vol self <= 1 ->
  (-31128 <= py_int (snd (next sin2pi self tone) * (2 ^ 15 - 1)) <= 31128)%Z.
Proof.
  intros Hv0 Hv1.
  pose proof (next_bounded self tone Hv0) as Hb.
  apply Qabs_Qle_condition in Hb as [Hlo Hhi].
  set (s := snd (next sin2pi self tone)) in *.
  assert (Hk : 2 ^ 15 - 1 == 32767) by reflexivity.
  apply (py_int_bound _ 31128); [lia | |];
    rewrite Hk; change (inject_Z 31128) with (31128 # 1); lra.
Qed.

Lemma pack_in_range (v : Z) :
  (-32768 <= v <= 32767)%Z ->
  pack_h v = Ok [v mod 256; (v / 256) mod 256]%Z.
Proof.
  intros [Hlo Hhi]. unfold pack_h.
  apply Z.leb_le in Hlo, Hhi. now rewrite Hlo, Hhi.
Qed.

(** A non-paused pass through the loop body, spelled out. *)
Lemma loop_body_playing (l : run_locals) (w : world) :
  paused (self w) = false -> 0 <= vol (self w) -> vol (self w) <= 1 ->
  let val_i := py_int (snd (next sin2pi (self w) (tone l)) * (2 ^ 15 - 1)) in
  loop_body sin2pi (l, w) =
  Ok ({| tone := fst (next sin2pi (self w) (tone l));
         record_func := record_func l |},
      {| self := self w;
         heap := append (record_func l) val_i (heap w);
         dsp := dsp w ++ [[val_i mod 256; (val_i / 256) mod 256]%Z] |}).
Proof.
  intros Hp Hv0 Hv1 val_i. unfold loop_body. rewrite Hp. cbn [negb].
  pose proof (sample_in_range (self w) (tone l) Hv0 Hv1) as Hr.
  fold val_i in Hr.
  destruct (next sin2pi (self w) (tone l)) as [tone' clean] eqn:Hn.
  cbn [fst snd] in *. fold val_i.
  rewrite pack_in_range by lia. reflexivity.
Qed.

Lemma append_lookup (l : loc) (v : Z) (h : gmap loc (list Z)) (buf : list Z) :
  h !! l = Some buf -> append l v h !! l = Some (buf ++ [v]).
Proof.
  intros H. unfold append. rewrite lookup_alter_eq, H. reflexivity.
Qed.

Lemma append_lookup_ne (l k : loc) (v : Z) (h : gmap loc (list Z)) :
  k <> l -> append l v h !! k = h !! k.
Proof.
  intros H. unfold append. now rewrite lookup_alter_ne.
Qed.

Lemma paused_idles (l : run_locals) (w : world) (n : nat) :
  paused (self w) = true ->
  exec sin2pi (repeat Iterate n) (l, w) = Ok (l, w).
Proof.
  intros Hp. induction n as [|n IH]; [reflexivity|].
  cbn [repeat exec step snd]. unfold loop_body. rewrite Hp.
  destruct (alive (self w)); exact IH.
Qed.

(** C6 (amended): with the volume in [0, 1], a non-paused pass through
    the loop pulls one sample from the generator, converts it to one
    integer that fits a signed 16-bit word, writes its two-byte packing to
    the sink, and appends the same integer to the buffer bound by
    [record_func] (the one [get_wav_data] returns as long as
    [self.recording] still names it); a paused pass leaves the generator,
    the sink and the store as they were, however often it is repeated. *)
Theorem C6_loop_iteration (l : run_locals) (w : world) :
  0 <= vol (self w) -> vol (self w) <= 1 ->
  (paused (self w) = false ->
   exists (val_i : Z) (sample : list Z) (l' : run_locals) (w' : world),
     val_i = py_int (snd (next sin2pi (self w) (tone l)) * (2 ^ 15 - 1)) /\
     pack_h val_i = Ok sample /\ unpack_h sample = Some val_i /\
     loop_body sin2pi (l, w) = Ok (l', w') /\
     tone l' = fst (next sin2pi (self w) (tone l)) /\
     record_func l' = record_func l /\
     self w' = self w /\
     dsp w' = dsp w ++ [sample] /\
     (forall buf, heap w !! record_func l = Some buf ->
                  heap w' !! record_func l = Some (buf ++ [val_i])) /\
     (forall k, k <> record_func l -> heap w' !! k = heap w !! k) /\
     (recording (self w) = record_func l ->
      forall buf, get_wav_data w = Some buf ->
                  get_wav_data w' = Some (buf ++ [val_i]))) /\
  (paused (self w) = true ->
   loop_body sin2pi (l, w) = Ok (l, w) /\
   forall n, exec sin2pi (repeat Iterate n) (l, w) = Ok (l, w)).
Proof.
  intros Hv0 Hv1. split.
  - intros Hp.
    pose proof (loop_body_playing l w Hp Hv0 Hv1) as Hbody. cbv zeta in Hbody.
    pose proof (sample_in_range (self w) (tone l) Hv0 Hv1) as Hr.
    set (val_i := py_int _) in *.
    eexists val_i, _, _, _.
    split; [reflexivity|].
    split; [apply pack_in_range; lia|].
    split; [apply (pack_unpack val_i); apply pack_in_range; lia|].
    split; [exact Hbody|].
    cbn [tone record_func self heap dsp].
    repeat (split; [reflexivity|]).
    split; [intros buf; apply append_lookup|].
    split; [intros k; apply append_lookup_ne|].
    unfold get_wav_data. cbn [self heap]. intros ->. intros buf.
    apply append_lookup.
  - intros Hp. split; [|intros n; now apply paused_idles].
    unfold loop_body. now rewrite Hp.
Qed.

(** C9: the integer written to the sink and appended to the recording in a
    non-paused pass is [int(s * (2^15 - 1))] for the generator's output
    [s], with [|s| <= 0.95 * vol]; when [vol] is in [0, 1] it lies in
    [-31128, 31128], so it is never -32768 and [struct.pack] does not
    raise. *)
Theorem C9_sample_range (l : run_locals) (w : world) :
  paused (self w) = false -> 0 <= vol (self w) -> vol (self w) <= 1 ->
  exists (s : Q) (val_i : Z) (st' : run_locals * world),
    s = snd (next sin2pi (self w) (tone l)) /\
    Qabs s <= 0.95 * vol (self w) /\
    val_i = py_int (s * (2 ^ 15 - 1)) /\
    (-31128 <= val_i <= 31128)%Z /\
    val_i <> (-32768)%Z /\
    pack_h val_i = Ok [val_i mod 256; (val_i / 256) mod 256]%Z /\
    loop_body sin2pi (l, w) = Ok st' /\
    dsp (snd st') = dsp w ++ [[val_i mod 256; (val_i / 256) mod 256]%Z] /\
    heap (snd st') = append (record_func l) val_i (heap w).
Proof.
  intros Hp Hv0 Hv1.
  pose proof (loop_body_playing l w Hp Hv0 Hv1) as Hbody. cbv zeta in Hbody.
  pose proof (sample_in_range (self w) (tone l) Hv0 Hv1) as Hr.
  eexists _, _, _.
  split; [reflexivity|].
  split; [now apply next_bounded|].
  split; [reflexivity|].
  split; [exact Hr|].
  split; [lia|].
  split; [apply pack_in_range; lia|].
  split; [exact Hbody|].
  split; reflexivity.
Qed.

(** Repeated passes of a live, non-paused loop: all of them succeed, the
    thread object is not touched, and the [n] integers go to the buffer
    bound by [record_func] and to no other. *)
Lemma playing_records (n : nat) :
  forall (l : run_locals) (w : world) (buf : list Z),
    alive (self w) = true -> paused (self w) = false ->
    0 <= vol (self w) -> vol (self w) <= 1 ->
    heap w !! record_func l = Some buf ->
    exists l' w' new,
      exec sin2pi (repeat Iterate n) (l, w) = Ok (l', w') /\
      self w' = self w /\ record_func l' = record_func l /\
      heap w' !! record_func l = Some (buf ++ new) /\ length new = n /\
      length (dsp w') = (length (dsp w) + n)%nat /\
      (forall k, k <> record_func l -> heap w' !! k = heap w !! k).
Proof.
  induction n as [|n IH]; intros l w buf Ha Hp Hv0 Hv1 Hbuf.
  - exists l, w, []. cbn [repeat exec]. rewrite app_nil_r.
    repeat split; [exact Hbuf | lia].
  - cbn [repeat exec step snd]. rewrite Ha.
    pose proof (loop_body_playing l w Hp Hv0 Hv1) as Hbody. cbv zeta in Hbody.
    set (val_i := py_int _) in *.
    rewrite Hbody. cbn [mbind result_bind].
    set (l1 := {| tone := _; record_func := record_func l |}).
    set (w1 := {| self := self w; heap := _; dsp := _ |}).
    destruct (IH l1 w1 (buf ++ [val_i])) as (l' & w' & new & He & Hs & Hr & Hh & Hn & Hd & Ho);
      try assumption.
    { apply append_lookup. exact Hbuf. }
    change (record_func l1) with (record_func l) in *.
    change (self w1) with (self w) in *.
    exists l', w', (val_i :: new).
    split; [exact He|].
    split; [exact Hs|].
    split; [exact Hr|].
    split; [rewrite Hh, <- app_assoc; reflexivity|].
    split; [cbn [length]; lia|].
    split.
    + rewrite Hd. subst w1. cbn [dsp]. rewrite length_app. cbn [length]. lia.
    + intros k Hk. rewrite (Ho k Hk). subst w1. cbn [heap].
      now apply append_lookup_ne.
Qed.

(** C1, what the code does: after [clear_wav_data] on a running thread
    [get_wav_data] has length 0, and it still has length 0 after [n]
    further non-paused passes of the loop, because the [n] samples are
    appended to the buffer that [record_func] was bound to when [run]
    started, which [self.recording] no longer names.  The claim asks for
    length [n]. *)
Theorem C1_clear_detaches_recording (l : run_locals) (w : world)
  (buf : list Z) (n : nat) :
  alive (self w) = true -> paused (self w) = false ->
  0 <= vol (self w) -> vol (self w) <= 1 ->
  heap w !! record_func l = Some buf ->
  get_wav_data (clear_wav_data w) = Some [] /\
  exists l' w' new,
    exec sin2pi (repeat Iterate n) (l, clear_wav_data w) = Ok (l', w') /\
    get_wav_data w' = Some [] /\
    heap w' !! record_func l = Some (buf ++ new) /\ length new = n /\
    length (dsp w') = (length (dsp w) + n)%nat.
Proof.
  intros Ha Hp Hv0 Hv1 Hbuf.
  set (w0 := clear_wav_data w).
  assert (Hfresh : recording (self w0) <> record_func l).
  { cbn [w0 clear_wav_data self recording]. intros Heq.
    pose proof (is_fresh (dom (heap w))) as Hnot.
    rewrite Heq in Hnot. apply Hnot. apply elem_of_dom. now exists buf. }
  assert (Hempty : get_wav_data w0 = Some []).
  { unfold get_wav_data. cbn [w0 clear_wav_data self recording heap].
    apply lookup_insert_eq. }
  split; [exact Hempty|].
  destruct (playing_records n l w0 buf) as (l' & w' & new & He & Hs & Hr & Hh & Hn & Hd & Ho);
    try assumption.
  { cbn [w0 clear_wav_data heap]. rewrite lookup_insert_ne; [exact Hbuf|].
    exact Hfresh. }
  exists l', w', new.
  split; [exact He|].
  split.
  - unfold get_wav_data. rewrite Hs. rewrite Ho by exact Hfresh. exact Hempty.
  - split; [exact Hh|]. split; [exact Hn|]. exact Hd.
Qed.

End Playback.

(** ** The note table and the key rotation *)

Lemma shift_notes_rotates (n : nat) :
  forall notes : list Note,
    (n <= length notes)%nat ->
    shift_notes n notes = Ok (skipn n notes ++ firstn n notes).
Proof.
  induction n as [|n IH]; intros notes Hlen.
  - cbn [shift_notes skipn firstn]. now rewrite app_nil_r.
  - destruct notes as [|first rest]; cbn [length] in Hlen; [lia|].
    cbn [shift_notes skipn firstn].
    rewrite IH by (rewrite length_app; cbn [length]; lia).
    rewrite skipn_app, firstn_app.
    replace (n - length rest)%nat with 0%nat by lia.
    cbn [skipn firstn]. rewrite app_nil_r, <- app_assoc. reflexivity.
Qed.

Lemma rotation_split {A : Type} (n : nat) (l : list A) :
  (n <= length l)%nat ->
  firstn (length l - n) (skipn n l ++ firstn n l) = skipn n l /\
  skipn (length l - n) (skipn n l ++ firstn n l) = firstn n l.
Proof.
  intros Hn.
  assert (Hlen : length (skipn n l) = (length l - n)%nat) by apply length_skipn.
  rewrite <- Hlen. split.
  - rewrite firstn_app, Nat.sub_diag, firstn_all. cbn [firstn].
    now rewrite app_nil_r.
  - rewrite skipn_app, Nat.sub_diag, skipn_all. reflexivity.
Qed.

Lemma ascending_tail (n : nat) :
  forall l, ascending l = true -> ascending (skipn n l) = true.
Proof.
  induction n as [|n IH]; intros l Hl; [exact Hl|].
  destruct l as [|a l]; [reflexivity|]. cbn [skipn].
  apply IH. now destruct (ascending_cons a l Hl).
Qed.

Lemma shifts_range (key_text : string) (n : nat) :
  shifts !! key_text = Some n -> (n < 12)%nat.
Proof.
  unfold shifts. intros H. apply elem_of_list_to_map_2 in H.
  repeat (apply elem_of_cons in H as [H | H];
          [injection H as -> ->; lia|]).
  now apply elem_of_nil in H.
Qed.

Lemma new_tone_filter_ok (app : ThereminApp) :
  In (scale app) SCALES ->
  exists app', new_tone_filter app = Ok app' /\
               shifted_notes app' = shifted_notes app.
Proof.
  intros Hs. unfold new_tone_filter.
  cbn [SCALES In] in Hs.
  destruct Hs as [<- | [<- | [<- | [<- | [<- | []]]]]];
    cbn; eexists; (split; [reflexivity|]); reflexivity.
Qed.

Lemma NOTES_length : length NOTES = 132%nat.
Proof. reflexivity. Qed.

Lemma NOTES_ascending : ascending (just_freqs NOTES) = true.
Proof. vm_compute. reflexivity. Qed.

(** The claim of C7 as it is worded fails for the key C# (offset 1): the
    rotated table is not the table with every cycle of twelve rotated, and
    it is not ascending, its last entry being the lowest note; the
    candidate list of the diatonic major scale in that key is not ascending
    either. *)
Lemma C7_rotation_counterexample :
  exists app1 app2 app3,
    key_changed "C#" app_init = Ok app1 /\
    shifted_notes app1 <> rotate_each_cycle 1 NOTES /\
    ascending (just_freqs (shifted_notes app1)) = false /\
    List.last (just_freqs (shifted_notes app1)) 0 = 16.352 /\
    scale_changed "diatonic major" app_init = Ok app2 /\
    key_changed "C#" app2 = Ok app3 /\
    ascending (tone_filter app3) = false.
Proof.
  eexists _, _, _.
  split; [vm_compute; reflexivity|].
  split.
  { intros H.
    apply (f_equal (fun l => nth_error (map fst l) 11)) in H.
    vm_compute in H. discriminate H. }
  split; [vm_compute; reflexivity|].
  split; [vm_compute; reflexivity|].
  split; [vm_compute; reflexivity|].
  split; vm_compute; reflexivity.
Qed.

(** C7 (amended): key rotation by the offset [n] in 0..11 of a key moves
    the first [n] entries of the whole note table to the end of the table;
    the first [132 - n] entries of the rotated table are the notes from
    position [n] on, in ascending frequency order. *)
Theorem C7_key_rotation (key_text : string) (n : nat) (app : ThereminApp) :
  shifts !! key_text = Some n -> In (scale app) SCALES ->
  (n < 12)%nat /\
  exists app',
    key_changed key_text app = Ok app' /\
    shifted_notes app' = skipn n NOTES ++ firstn n NOTES /\
    firstn (132 - n) (shifted_notes app') = skipn n NOTES /\
    skipn (132 - n) (shifted_notes app') = firstn n NOTES /\
    ascending (just_freqs (firstn (132 - n) (shifted_notes app'))) = true.
Proof.
  intros Hkey Hscale.
  pose proof (shifts_range _ _ Hkey) as Hn.
  split; [exact Hn|].
  unfold key_changed. rewrite Hkey. cbn [mbind result_bind].
  rewrite shift_notes_rotates by (rewrite NOTES_length; lia).
  cbn [mbind result_bind].
  set (app0 := {| scale := scale app; key := key_text;
                  shifted_notes := skipn n NOTES ++ firstn n NOTES;
                  discrete_notes := _; root_notes := _; tone_filter := _ |}).
  destruct (new_tone_filter_ok app0 Hscale) as (app' & Hok & Hshift).
  exists app'. split; [exact Hok|].
  rewrite Hshift. cbn [app0 shifted_notes].
  split; [reflexivity|].
  destruct (rotation_split n NOTES) as [Hfirst Hlast];
    [rewrite NOTES_length; lia|].
  rewrite NOTES_length in Hfirst, Hlast.
  rewrite Hfirst, Hlast.
  split; [reflexivity|]. split; [reflexivity|].
  unfold just_freqs. rewrite <- skipn_map.
  apply ascending_tail. exact NOTES_ascending.
Qed.

Lemma C7_key_rotation_witness :
  exists app',
    key_changed "A" app_init = Ok app' /\
    shifted_notes app' = skipn 9 NOTES ++ firstn 9 NOTES /\
    firstn (132 - 9) (shifted_notes app') = skipn 9 NOTES /\
    skipn (132 - 9) (shifted_notes app') = firstn 9 NOTES /\
    ascending (just_freqs (firstn (132 - 9) (shifted_notes app'))) = true.
Proof.
  apply (C7_key_rotation "A" 9 app_init).
  - vm_compute. reflexivity.
  - left. reflexivity.
Defined.

(** ** Concrete cases *)

Lemma quarter_sine_bounded (t : Q) : -1 <= quarter_sine t /\ quarter_sine t <= 1.
Proof.
  unfold quarter_sine.
  destruct (Qfloor (4 * t) mod 4)%Z as [|[[]|[]|]|]; split; vm_compute; discriminate.
Qed.

Lemma at_commit_reached :
  exec quarter_sine quarter_rate_run started = Ok at_commit.
Proof. vm_compute. reflexivity. Qed.

(** The claim of C5 as it is worded fails at [at_commit]: the next call of
    the generator commits the frequency 440 in place of 11025 although the
    previous sample is -1, of amplitude 1; it is the sample just computed,
    0, that is inside the threshold. *)
Lemma C5_previous_sample_counterexample :
  committed (self (snd at_commit)) (tone (fst at_commit)) = 11025 /\
  committed (self (snd at_commit))
    (fst (next quarter_sine (self (snd at_commit)) (tone (fst at_commit))))
  = 440 /\
  sample_clock
    (fst (next quarter_sine (self (snd at_commit)) (tone (fst at_commit))))
  = 1%Z /\
  current_sample quarter_sine (self (snd at_commit)) (tone (fst at_commit))
  = 0 /\
  previous_sample (tone (fst at_commit)) = -1 /\
  ~ Qabs (previous_sample (tone (fst at_commit))) < 0.01.
Proof.
  repeat split; try (vm_compute; reflexivity).
  vm_compute. discriminate.
Qed.

Lemma C10_commit_step_witness :
  commits (committed (self (snd at_commit)) (tone (fst at_commit)))
          (ft (self (snd at_commit)))
          (current_sample quarter_sine (self (snd at_commit))
             (tone (fst at_commit)))
          (previous_sample (tone (fst at_commit))) = true /\
  sample_clock
    (fst (next quarter_sine (self (snd at_commit)) (tone (fst at_commit))))
  = 1%Z.
Proof.
  split; [vm_compute; reflexivity|].
  apply (C10_commit_step quarter_sine (self (snd at_commit))
           (self (snd at_commit)) (tone (fst at_commit))).
  vm_compute. reflexivity.
Defined.

(** The claim of C6 as it is worded fails at [at_crest], where the volume
    is 1.1: the sample pulled is [1 * 1.1 * 0.95], the integer is 34241,
    beyond the short range, [struct.pack] raises, and the pass ends before
    anything is written to the sink or appended to the recording. *)
Lemma C6_loud_volume_counterexample :
  exec quarter_sine loud_run started = Ok at_crest /\
  paused (self (snd at_crest)) = false /\
  vol (self (snd at_crest)) = 1.1 /\
  snd (next quarter_sine (self (snd at_crest)) (tone (fst at_crest)))
    = 1 * 1.1 * 0.95 /\
  py_int (1 * 1.1 * 0.95 * (2 ^ 15 - 1)) = 34241%Z /\
  pack_h 34241 = Raise StructError /\
  loop_body quarter_sine (fst at_crest, snd at_crest) = Raise StructError.
Proof.
  repeat split; vm_compute; reflexivity.
Qed.

Lemma C6_loop_iteration_witness :
  exists (val_i : Z) (sample : list Z) (l' : run_locals) (w' : world),
    loop_body quarter_sine (fst at_commit, snd at_commit) = Ok (l', w') /\
    unpack_h sample = Some val_i /\
    dsp w' = dsp (snd at_commit) ++ [sample] /\
    get_wav_data w' = Some ([0; 31128; 0; -31128]%Z ++ [val_i]).
Proof.
  destruct (C6_loop_iteration quarter_sine quarter_sine_bounded
              (fst at_commit) (snd at_commit)) as [Hplay _].
  - vm_compute. discriminate.
  - vm_compute. discriminate.
  - destruct Hplay as (val_i & sample & l' & w' & _ & _ & Hun & Hbody & _ & _
                       & _ & Hdsp & _ & _ & Hwav); [vm_compute; reflexivity|].
    exists val_i, sample, l', w'.
    repeat split; [exact Hbody | exact Hun | exact Hdsp |].
    apply Hwav; vm_compute; reflexivity.
Defined.

Lemma C9_sample_range_witness :
  exists (s : Q) (val_i : Z) (st' : run_locals * world),
    s = snd (next quarter_sine (self (snd at_commit)) (tone (fst at_commit))) /\
    Qabs s <= 0.95 * vol (self (snd at_commit)) /\
    val_i = py_int (s * (2 ^ 15 - 1)) /\
    (-31128 <= val_i <= 31128)%Z /\
    val_i <> (-32768)%Z /\
    pack_h val_i = Ok [val_i mod 256; (val_i / 256) mod 256]%Z /\
    loop_body quarter_sine (fst at_commit, snd at_commit) = Ok st' /\
    dsp (snd st') =
      dsp (snd at_commit) ++ [[val_i mod 256; (val_i / 256) mod 256]%Z] /\
    heap (snd st') =
      append (record_func (fst at_commit)) val_i (heap (snd at_commit)).
Proof.
  apply (C9_sample_range quarter_sine quarter_sine_bounded
           (fst at_commit) (snd at_commit)).
  - vm_compute. reflexivity.
  - vm_compute. discriminate.
  - vm_compute. discriminate.
Defined.

Lemma C1_clear_detaches_recording_witness :
  get_wav_data (clear_wav_data (snd at_commit)) = Some [] /\
  exists l' w' new,
    exec quarter_sine (repeat Iterate 3)
      (fst at_commit, clear_wav_data (snd at_commit)) = Ok (l', w') /\
    get_wav_data w' = Some [] /\
    heap w' !! record_func (fst at_commit)
      = Some ([0; 31128; 0; -31128]%Z ++ new) /\
    length new = 3%nat /\
    length (dsp w') = (length (dsp (snd at_commit)) + 3)%nat.
Proof.
  apply (C1_clear_detaches_recording quarter_sine quarter_sine_bounded
           (fst at_commit) (snd at_commit) [0; 31128; 0; -31128]%Z 3).
  - vm_compute. reflexivity.
  - vm_compute. reflexivity.
  - vm_compute. discriminate.
  - vm_compute. discriminate.
  - vm_compute. reflexivity.
Defined.

(** ** More on the quantizer *)

(** Once the table has risen strictly from an entry at or above the input,
    the loop has ended: what follows is never read. *)
Lemma scan_stops_at_rise (x a b : Q) (post : list Q) :
  x <= a -> a < b ->
  forall pre i c e,
    scan x i (pre ++ a :: b :: post) c e = scan x i (pre ++ [a; b]) c e.
Proof.
  intros Hxa Hab.
  assert (Ha : Qabs (x - a) == a - x).
  { rewrite Qabs_diff_sym. apply Qabs_pos. lra. }
  assert (Hb : Qabs (x - b) == b - x).
  { rewrite Qabs_diff_sym. apply Qabs_pos. lra. }
  assert (H1 : Qltb (Qabs (x - b)) (Qabs (x - a)) = false)
    by (apply Qltb_ge; lra).
  assert (H2 : Qltb (Qabs (x - a)) (Qabs (x - b)) = true)
    by (apply Qltb_lt; lra).
  induction pre as [|p pre IH]; intros i c e; cbn [app scan].
  - destruct (Qltb (Qabs (x - a)) e) eqn:Hlt.
    + now rewrite H1, H2.
    + destruct (Qltb e (Qabs (x - a))) eqn:Hgt; [reflexivity|].
      apply Qltb_ge in Hlt, Hgt.
      assert (H3 : Qltb (Qabs (x - b)) e = false) by (apply Qltb_ge; lra).
      assert (H4 : Qltb e (Qabs (x - b)) = true) by (apply Qltb_lt; lra).
      now rewrite H3, H4.
  - destruct (Qltb (Qabs (x - p)) e); [apply IH|].
    destruct (Qltb e (Qabs (x - p))); [reflexivity | apply IH].
Qed.

Lemma ascending_prefix_ascending (l : list Q) :
  ascending (ascending_prefix l) = true.
Proof.
  induction l as [|a [|b l] IH]; try reflexivity.
  cbn [ascending_prefix] in IH |- *.
  destruct (Qle_bool a b) eqn:Hab; [|reflexivity].
  change (ascending (a :: ascending_prefix (b :: l)) = true).
  cbn [ascending_prefix ascending] in IH |- *.
  now rewrite Hab, IH.
Qed.

Lemma ascending_prefix_split (l : list Q) :
  exists tail, l = ascending_prefix l ++ tail.
Proof.
  induction l as [|a [|b l] IH].
  - now exists [].
  - now exists [].
  - change (ascending_prefix (a :: b :: l))
      with (a :: if Qle_bool a b then ascending_prefix (b :: l) else []).
    destruct (Qle_bool a b).
    + destruct IH as [tail IH]. exists tail. cbn [app]. now rewrite <- IH.
    + now exists (b :: l).
Qed.

Lemma rises_above_split (bound : Q) (l : list Q) :
  rises_above bound l = true ->
  exists pre a b post, l = pre ++ a :: b :: post /\ bound <= a /\ a < b.
Proof.
  induction l as [|a [|b l] IH]; try discriminate.
  change (rises_above bound (a :: b :: l))
    with ((Qle_bool bound a && Qltb a b) || rises_above bound (b :: l)).
  intros H. apply orb_prop in H as [H | H].
  - apply andb_prop in H as [H1 H2].
    apply Qle_bool_iff in H1. apply Qltb_lt in H2.
    now exists [], a, b, l.
  - destruct (IH H) as (pre & a' & b' & post & Heq & Hb & Hr).
    exists (a :: pre), a', b', post. cbn [app]. now rewrite Heq.
Qed.

Lemma filt_same_head (first : Q) (l1 l2 : list Q) (x : Q) :
  scan x 0 (first :: l1) first 500000 = scan x 0 (first :: l2) first 500000 ->
  filt (first :: l1) x = filt (first :: l2) x.
Proof. unfold filt. now intros ->. Qed.

Lemma filt_ignores_tail (tones : list Q) (x bound : Q) :
  rises_above bound (ascending_prefix tones) = true ->
  x <= bound -> Qabs (x - hd 0 tones) <= 500000 ->
  exists v,
    filt tones x = Ok v /\ filt (ascending_prefix tones) x = Ok v /\
    forall t, In t (ascending_prefix tones) -> Qabs (v - x) <= Qabs (x - t).
Proof.
  intros Hrise Hx Hnear.
  destruct (rises_above_split _ _ Hrise) as (pre & a & b & post & Hp & Ha & Hab).
  destruct (ascending_prefix_split tones) as [tail Ht].
  pose proof (ascending_prefix_ascending tones) as Hasc.
  assert (Hsame : filt tones x = filt (ascending_prefix tones) x).
  { rewrite Ht at 1. rewrite Hp, <- app_assoc. cbn [app].
    destruct pre as [|first pre]; cbn [app].
    - transitivity (filt [a; b] x); [|symmetry]; apply filt_same_head.
      + apply (scan_stops_at_rise x a b (post ++ tail)) with (pre := []); lra.
      + apply (scan_stops_at_rise x a b post) with (pre := []); lra.
    - transitivity (filt (first :: pre ++ [a; b]) x); [|symmetry];
        apply filt_same_head.
      + apply (scan_stops_at_rise x a b (post ++ tail))
          with (pre := first :: pre); lra.
      + apply (scan_stops_at_rise x a b post) with (pre := first :: pre); lra. }
  assert (Hhd : hd 0 tones = hd 0 (ascending_prefix tones)).
  { rewrite Ht at 1. rewrite Hp. now destruct pre. }
  rewrite Hhd in Hnear.
  destruct (ascending_prefix tones) as [|first rest] eqn:Hpre.
  { now destruct pre. }
  cbn [hd] in Hnear.
  destruct (filt_nearest first rest x Hasc Hnear) as (v & Hv & Hmin).
  exists v. rewrite Hsame. now repeat split.
Qed.

(** X1: on a table whose ascending prefix rises strictly from an entry at
    or above [bound], every input up to [bound] is quantized as on that
    prefix alone: the result is as near to the input as any entry of the
    prefix, and what lies after the prefix has no influence. *)
Theorem quantizer_ignores_tail (tones : list Q) (x bound : Q) :
  rises_above bound (ascending_prefix tones) = true ->
  x <= bound -> Qabs (x - hd 0 tones) <= 500000 ->
  exists v,
    filt tones x = Ok v /\ filt (ascending_prefix tones) x = Ok v /\
    forall t, In t (ascending_prefix tones) -> Qabs (v - x) <= Qabs (x - t).
Proof. exact (filt_ignores_tail tones x bound). Qed.

Lemma quantizer_ignores_tail_witness :
  exists v,
    filt [100; 200; 300; 50] 150 = Ok v /\
    filt (ascending_prefix [100; 200; 300; 50]) 150 = Ok v /\
    forall t, In t (ascending_prefix [100; 200; 300; 50]) ->
              Qabs (v - 150) <= Qabs (150 - t).
Proof.
  apply (quantizer_ignores_tail [100; 200; 300; 50] 150 200).
  - reflexivity.
  - vm_compute. discriminate.
  - vm_compute. discriminate.
Defined.

(** X2: an input that is itself a table entry is returned unchanged, on an
    ascending table whose first entry is within the sentinel of it. *)
Theorem quantizer_fixes_table_entries (tones : list Q) (x : Q) :
  ascending tones = true -> In x tones ->
  Qabs (x - hd 0 tones) <= 500000 ->
  exists v, filt tones x = Ok v /\ v == x.
Proof.
  intros Hasc Hin Hnear.
  destruct tones as [|first rest]; [destruct Hin|]. cbn [hd] in Hnear.
  destruct (filt_nearest first rest x Hasc Hnear) as (v & Hv & Hmin).
  exists v. split; [exact Hv|].
  specialize (Hmin x Hin).
  assert (H0 : Qabs (x - x) == 0).
  { assert (Hz : x - x == 0) by ring. rewrite Hz. reflexivity. }
  rewrite H0 in Hmin.
  pose proof (Qabs_nonneg (v - x)) as Hpos.
  assert (Hz : Qabs (v - x) == 0) by lra.
  revert Hz. apply (Qabs_case (v - x)); intros; lra.
Qed.

Lemma quantizer_fixes_table_entries_witness :
  exists v, filt [100; 200; 300] 200 = Ok v /\ v == 200.
Proof.
  apply (quantizer_fixes_table_entries [100; 200; 300] 200).
  - reflexivity.
  - right. left. reflexivity.
  - vm_compute. discriminate.
Defined.

(** X3: below a table that starts with a strict rise the filter does not
    snap to the first entry: it returns the point halfway between the first
    entry and the input. *)
Theorem quantizer_below_table (first second : Q) (rest : list Q) (x : Q) :
  x < first -> first < second -> first - x < 500000 ->
  filt (first :: second :: rest) x = Ok (first + (x - first) / 2) /\
  broke_at (scan x 0 (first :: second :: rest) first 500000) = Some 1%nat.
Proof.
  intros Hx Hrise Hnear. unfold filt. cbn [scan].
  assert (Ha : Qabs (x - first) == first - x).
  { rewrite Qabs_diff_sym. apply Qabs_pos. lra. }
  assert (Hb : Qabs (x - second) == second - x).
  { rewrite Qabs_diff_sym. apply Qabs_pos. lra. }
  assert (H0 : Qltb (Qabs (x - first)) 500000 = true) by (apply Qltb_lt; lra).
  assert (H1 : Qltb (Qabs (x - second)) (Qabs (x - first)) = false)
    by (apply Qltb_ge; lra).
  assert (H2 : Qltb (Qabs (x - first)) (Qabs (x - second)) = true)
    by (apply Qltb_lt; lra).
  rewrite H0, H1, H2. split; reflexivity.
Qed.

Lemma quantizer_below_table_witness :
  filt [100; 200; 300] 40 = Ok (100 + (40 - 100) / 2) /\
  broke_at (scan 40 0 [100; 200; 300] 100 500000) = Some 1%nat.
Proof.
  apply (quantizer_below_table 100 200 [300] 40); vm_compute; reflexivity.
Defined.

Lemma last_cons {A : Type} (l : list A) :
  forall a d, List.last (a :: l) d = List.last l a.
Proof.
  induction l as [|b l IH]; intros a d; [reflexivity|].
  change (List.last (a :: b :: l) d) with (List.last (b :: l) d).
  now rewrite !IH.
Qed.

Lemma last_default_eq (l : list Q) (c d : Q) :
  c == d -> List.last l c == List.last l d.
Proof.
  intros H. destruct l as [|a l]; [exact H|]. rewrite !last_cons. reflexivity.
Qed.

Lemma ascending_le_last (l : list Q) :
  forall a, ascending (a :: l) = true ->
            forall t, In t (a :: l) -> t <= List.last l a.
Proof.
  induction l as [|b l IH]; intros a Hasc t Ht.
  - destruct Ht as [<- | []]. cbn. lra.
  - destruct (ascending_cons _ _ Hasc) as [Hl Hge].
    rewrite last_cons.
    destruct Ht as [<- | Ht].
    + pose proof (IH b Hl b (or_introl eq_refl)).
      pose proof (Hge b (or_introl eq_refl)). lra.
    + now apply IH.
Qed.

(** With the whole table at or below the input the loop never breaks and
    ends on the last entry. *)
Lemma scan_above (x : Q) (rest : list Q) :
  forall i c e,
    e == Qabs (x - c) -> ascending (c :: rest) = true ->
    List.last rest c <= x ->
    let r := scan x i rest c e in
    broke_at r = None /\ mean r = 0 /\ closest r == List.last rest c.
Proof.
  induction rest as [|tone rest IH]; intros i c e He Hasc Hlast; cbn [scan].
  - cbn. repeat split; reflexivity.
  - destruct (ascending_cons _ _ Hasc) as [Hrest Hge].
    rewrite last_cons in Hlast |- *.
    pose proof (Hge tone (or_introl eq_refl)) as Hct.
    pose proof (ascending_le_last rest tone Hrest tone (or_introl eq_refl))
      as Htl.
    assert (Hc : Qabs (x - c) == x - c) by (apply Qabs_pos; lra).
    assert (Ht : Qabs (x - tone) == x - tone) by (apply Qabs_pos; lra).
    destruct (Qltb (Qabs (x - tone)) e) eqn:Hlt.
    + apply (IH (S i) tone (Qabs (x - tone)) (Qeq_refl _) Hrest Hlast).
    + apply Qltb_ge in Hlt.
      assert (Hgt : Qltb e (Qabs (x - tone)) = false) by (apply Qltb_ge; lra).
      rewrite Hgt.
      assert (Heq : c == tone) by lra.
      destruct (IH (S i) c e He (ascending_skip _ _ _ Hasc)) as (H1 & H2 & H3).
      { rewrite (last_default_eq rest c tone Heq). exact Hlast. }
      repeat split; [exact H1 | exact H2 |].
      rewrite H3. now apply last_default_eq.
Qed.

(** X4: at or above the top of an ascending table the loop runs to the end
    without a [break], and the filter returns the last entry itself. *)
Theorem quantizer_above_table (first : Q) (rest : list Q) (x : Q) :
  ascending (first :: rest) = true ->
  List.last rest first <= x -> x - first <= 500000 ->
  broke_at (scan x 0 (first :: rest) first 500000) = None /\
  exists v, filt (first :: rest) x = Ok v /\ v == List.last rest first.
Proof.
  intros Hasc Hlast Hnear.
  pose proof (ascending_le_last rest first Hasc first (or_introl eq_refl))
    as Hfl.
  assert (Hf : Qabs (x - first) == x - first) by (apply Qabs_pos; lra).
  unfold filt. cbn [scan].
  assert (Hgt : Qltb 500000 (Qabs (x - first)) = false)
    by (apply Qltb_ge; lra).
  rewrite Hgt.
  set (e := if Qltb (Qabs (x - first)) 500000 then Qabs (x - first) else 500000).
  assert (He : e == Qabs (x - first)).
  { subst e. destruct (Qltb (Qabs (x - first)) 500000) eqn:Hlt; [reflexivity|].
    apply Qltb_ge in Hlt. lra. }
  assert (Hscan : (if Qltb (Qabs (x - first)) 500000
                   then scan x 1 rest first (Qabs (x - first))
                   else scan x 1 rest first 500000) = scan x 1 rest first e).
  { subst e. now destruct (Qltb (Qabs (x - first)) 500000). }
  rewrite Hscan.
  destruct (scan_above x rest 1 first e He Hasc Hlast) as (H1 & H2 & H3).
  split; [exact H1|].
  eexists. split; [reflexivity|].
  rewrite H2, <- H3. ring.
Qed.

Lemma quantizer_above_table_witness :
  broke_at (scan 450 0 [100; 200; 300] 100 500000) = None /\
  exists v, filt [100; 200; 300] 450 = Ok v /\ v == 300.
Proof.
  apply (quantizer_above_table 100 [200; 300] 450).
  - reflexivity.
  - vm_compute. discriminate.
  - vm_compute. discriminate.
Defined.

(** ** More on the note table *)

Lemma nth_error_flat_map_block {A B : Type} (f : A -> list B) (m : nat) :
  (forall a, length (f a) = m) ->
  forall (l : list A) (i j : nat) (a : A),
    nth_error l i = Some a -> (j < m)%nat ->
    nth_error (flat_map f l) (m * i + j) = nth_error (f a) j.
Proof.
  intros Hlen. induction l as [|h l IH]; intros i j a Hi Hj.
  - destruct i; discriminate Hi.
  - cbn [flat_map]. destruct i as [|i]; cbn [nth_error] in Hi.
    + injection Hi as ->. rewrite Nat.mul_0_r, Nat.add_0_l.
      apply nth_error_app1. rewrite Hlen. exact Hj.
    + rewrite nth_error_app2 by (rewrite Hlen; lia).
      rewrite Hlen.
      replace (m * S i + j - m)%nat with (m * i + j)%nat by lia.
      now apply IH.
Qed.

(** X5: entry [12 * octave + j] of [NOTES] is note [j] of the base octave,
    labelled with the octave number and with [2 ^ octave] times the base
    frequency. *)
Theorem NOTES_entry (octave j : nat) (label : string) (freq : Q) :
  (octave < 11)%nat ->
  nth_error equal_temp_tuning j = Some (label, freq) ->
  nth_error NOTES (12 * octave + j) =
    Some (replace_star (decimal octave) label,
          inject_Z (2 ^ Z.of_nat octave) * freq).
Proof.
  intros Ho Hj. unfold NOTES.
  assert (Hlt : (j < 12)%nat).
  { change 12%nat with (length equal_temp_tuning).
    apply (proj1 (nth_error_Some equal_temp_tuning j)).
    rewrite Hj. discriminate. }
  rewrite (nth_error_flat_map_block _ 12) with (a := octave).
  - rewrite nth_error_map. unfold Note in Hj |- *. rewrite Hj. reflexivity.
  - intros a. now rewrite length_map.
  - rewrite nth_error_seq. apply Nat.ltb_lt in Ho. now rewrite Ho.
  - exact Hlt.
Qed.

Lemma NOTES_entry_witness :
  nth_error NOTES (12 * 4 + 9) = Some ("A4"%string, inject_Z (2 ^ 4) * 27.500).
Proof.
  apply (NOTES_entry 4 9 "A*" 27.500); [lia | reflexivity].
Defined.

Lemma new_tone_filter_unfold (app : ThereminApp) :
  new_tone_filter app =
  (notes ← key_notes (scale app) (shifted_notes app);
   Ok {| scale := scale app;
         key := key app;
         shifted_notes := shifted_notes app;
         discrete_notes := notes;
         root_notes := select [0%nat] (shifted_notes app);
         tone_filter := just_freqs notes |}).
Proof. reflexivity. Qed.

Lemma new_tone_filter_fields (app app' : ThereminApp) :
  new_tone_filter app = Ok app' ->
  scale app' = scale app /\ key app' = key app /\
  shifted_notes app' = shifted_notes app /\
  key_notes (scale app) (shifted_notes app) = Ok (discrete_notes app') /\
  root_notes app' = select [0%nat] (shifted_notes app) /\
  tone_filter app' = just_freqs (discrete_notes app').
Proof.
  rewrite new_tone_filter_unfold.
  destruct (key_notes (scale app) (shifted_notes app)) as [notes|e];
    cbn [mbind result_bind]; [|discriminate].
  intros [= <-]. cbn. repeat split.
Qed.

Lemma key_notes_ok (scale_name : string) (shifted : list Note) :
  In scale_name SCALES -> exists notes, key_notes scale_name shifted = Ok notes.
Proof.
  cbn [SCALES In].
  intros [<- | [<- | [<- | [<- | [<- | []]]]]]; cbn; eexists; reflexivity.
Qed.

Lemma key_notes_unknown (scale_name : string) (shifted : list Note) :
  ~ In scale_name SCALES -> key_notes scale_name shifted = Raise NameError.
Proof.
  intros Hno. unfold key_notes.
  repeat (match goal with
          | |- context [String.eqb scale_name ?s] =>
              destruct (String.eqb_spec scale_name s) as [-> | _];
              [exfalso; apply Hno; cbn; tauto|]
          end).
  reflexivity.
Qed.

Lemma key_changed_unfold (key_text : string) (n : nat) (app : ThereminApp) :
  shifts !! key_text = Some n ->
  key_changed key_text app =
  new_tone_filter
    {| scale := scale app;
       key := key_text;
       shifted_notes := rotated n;
       discrete_notes := discrete_notes app;
       root_notes := root_notes app;
       tone_filter := tone_filter app |}.
Proof.
  intros Hkey. unfold key_changed. rewrite Hkey. cbn [mbind result_bind].
  rewrite shift_notes_rotates
    by (rewrite NOTES_length; pose proof (shifts_range _ _ Hkey); lia).
  reflexivity.
Qed.

(** X6: how [key_changed] ends: with [KeyError] exactly on a text that is
    not a key of [shifts], with [NameError] on a known key when the scale
    is none of [SCALES], and with a new state otherwise. *)
Theorem key_changed_outcomes (key_text : string) (app : ThereminApp) :
  (shifts !! key_text = None /\ key_changed key_text app = Raise KeyError) \/
  (is_Some (shifts !! key_text) /\ ~ In (scale app) SCALES /\
   key_changed key_text app = Raise NameError) \/
  (is_Some (shifts !! key_text) /\ In (scale app) SCALES /\
   exists app', key_changed key_text app = Ok app' /\
                key app' = key_text /\ scale app' = scale app).
Proof.
  destruct (shifts !! key_text) as [n|] eqn:Hkey.
  - right. rewrite (key_changed_unfold _ _ _ Hkey), new_tone_filter_unfold.
    cbn [scale shifted_notes key].
    destruct (in_dec string_dec (scale app) SCALES) as [Hin | Hno].
    + right. split; [now exists n|]. split; [exact Hin|].
      destruct (key_notes_ok _ (rotated n) Hin) as [notes ->].
      cbn [mbind result_bind]. eexists. split; [reflexivity|]. now split.
    + left. split; [now exists n|]. split; [exact Hno|].
      now rewrite key_notes_unknown.
  - left. split; [reflexivity|]. unfold key_changed. now rewrite Hkey.
Qed.

Lemma shifts_cases (key_text : string) (n : nat) :
  shifts !! key_text = Some n ->
  In (key_text, n)
     [ ("A", 9); ("A#", 10); ("B", 11); ("C", 0); ("C#", 1); ("D", 2);
       ("D#", 3); ("E", 4); ("F", 5); ("F#", 6); ("G", 7); ("G#", 8) ]%nat.
Proof.
  unfold shifts. intros H. apply elem_of_list_to_map_2 in H.
  now apply list_elem_of_In.
Qed.

(** X7: after [key_changed] the root notes are the eleven notes that bear
    the name of the key, one in each octave. *)
Theorem roots_named_by_key (key_text : string) (app app' : ThereminApp) :
  key_changed key_text app = Ok app' ->
  length (root_notes app') = 11%nat /\
  forall note, In note (root_notes app') -> note_name (fst note) = key_text.
Proof.
  intros Hok.
  destruct (shifts !! key_text) as [n|] eqn:Hkey.
  2:{ unfold key_changed in Hok. rewrite Hkey in Hok. discriminate Hok. }
  rewrite (key_changed_unfold _ _ _ Hkey) in Hok.
  apply new_tone_filter_fields in Hok as (_ & _ & _ & _ & Hroots & _).
  cbn [shifted_notes] in Hroots. rewrite Hroots.
  assert (Hall :
    forallb (fun kn : string * nat =>
               (length (select [0%nat] (rotated (snd kn))) =? 11)%nat
               && forallb (fun note : Note =>
                             String.eqb (note_name (fst note)) (fst kn))
                          (select [0%nat] (rotated (snd kn))))
      [ ("A", 9); ("A#", 10); ("B", 11); ("C", 0); ("C#", 1); ("D", 2);
        ("D#", 3); ("E", 4); ("F", 5); ("F#", 6); ("G", 7); ("G#", 8) ]%nat
    = true) by (vm_compute; reflexivity).
  rewrite forallb_forall in Hall.
  specialize (Hall _ (shifts_cases _ _ Hkey)). cbn [fst snd] in Hall.
  apply andb_prop in Hall as [Hlen Hnames].
  split; [now apply Nat.eqb_eq|].
  intros note Hin. rewrite forallb_forall in Hnames.
  now apply String.eqb_eq, Hnames.
Qed.

Lemma roots_named_by_key_witness :
  exists app',
    key_changed "F#" app_init = Ok app' /\
    length (root_notes app') = 11%nat /\
    forall note, In note (root_notes app') -> note_name (fst note) = "F#"%string.
Proof.
  eexists. split; [vm_compute; reflexivity|].
  apply (roots_named_by_key "F#" app_init). vm_compute. reflexivity.
Defined.

(** ** More on the playback thread *)

(** X8: [struct.pack("h", v)] raises exactly outside the short range; inside
    it gives two bytes, each in [0, 255], from which [unpack_h] gives [v]
    back. *)
Theorem short_round_trip (v : Z) :
  (pack_h v = Raise StructError <-> ~ (-32768 <= v <= 32767)%Z) /\
  (forall bytes, pack_h v = Ok bytes ->
     bytes = short_bytes v /\
     Forall (fun b => (0 <= b < 256)%Z) bytes /\
     unpack_h bytes = Some v).
Proof.
  split.
  - unfold pack_h.
    destruct ((-32768 <=? v) && (v <=? 32767))%Z eqn:Hr.
    + apply andb_prop in Hr as [Hlo Hhi]. apply Z.leb_le in Hlo, Hhi.
      split; [discriminate | lia].
    + split; [|reflexivity]. intros _ [Hlo Hhi].
      apply Z.leb_le in Hlo, Hhi. rewrite Hlo, Hhi in Hr. discriminate Hr.
  - intros bytes Hp. pose proof (pack_unpack v bytes Hp) as Hun.
    unfold pack_h in Hp.
    destruct ((-32768 <=? v) && (v <=? 32767))%Z; [|discriminate].
    injection Hp as <-. split; [reflexivity|]. split; [|exact Hun].
    repeat constructor; apply Z.mod_pos_bound; lia.
Qed.

Lemma write_frames_ok (aborted : nat -> bool) (data : list Z) :
  Forall (fun v => (-32768 <= v <= 32767)%Z) data ->
  forall i, exists k,
    write_frames aborted i data = Ok (map short_bytes (firstn k data)) /\
    (k <= length data)%nat /\
    (k = length data \/
     (((i + k) mod 256 = 0)%nat /\ aborted (i + k)%nat = true)).
Proof.
  induction 1 as [|sample rest Hs Hrest IH]; intros i.
  - exists 0%nat. cbn. repeat split; auto.
  - cbn [write_frames].
    destruct ((i mod 256 =? 0)%nat && aborted i) eqn:Hab.
    + exists 0%nat. cbn [firstn map length]. split; [reflexivity|].
      split; [lia|]. right.
      apply andb_prop in Hab as [Hm Ha]. apply Nat.eqb_eq in Hm.
      rewrite Nat.add_0_r. now split.
    + rewrite pack_in_range by exact Hs. cbn [mbind result_bind].
      destruct (IH (S i)) as (k & -> & Hk & Hend).
      cbn [mbind result_bind].
      exists (S k). cbn [firstn map length]. split; [reflexivity|].
      split; [lia|].
      replace (i + S k)%nat with (S i + k)%nat by lia.
      destruct Hend as [-> | Hend]; [now left | now right].
Qed.

Lemma unpack_short_bytes (l : list Z) :
  Forall (fun v => (-32768 <= v <= 32767)%Z) l ->
  map unpack_h (map short_bytes l) = map Some l.
Proof.
  induction 1 as [|v l Hv Hl IHl]; [reflexivity|].
  cbn [map]. rewrite IHl. f_equal.
  apply (pack_unpack v). now apply pack_in_range.
Qed.

(** X9: on samples that fit a short, the loop of [saveas] does not raise
    and writes the packing of a prefix of the recording: all of it, or, if
    the dialog was answered, the part before the index, a multiple of 256,
    at which the loop noticed. *)
Theorem saveas_writes_prefix (aborted : nat -> bool) (data : list Z) :
  Forall (fun v => (-32768 <= v <= 32767)%Z) data ->
  exists k,
    write_frames aborted 0 data = Ok (map short_bytes (firstn k data)) /\
    (k <= length data)%nat /\
    (k = length data \/ ((k mod 256 = 0)%nat /\ aborted k = true)) /\
    map unpack_h (map short_bytes (firstn k data))
      = map Some (firstn k data).
Proof.
  intros Hdata.
  destruct (write_frames_ok aborted data Hdata 0) as (k & Hw & Hk & Hend).
  exists k. split; [exact Hw|]. split; [exact Hk|]. split; [exact Hend|].
  apply unpack_short_bytes. now apply Forall_take.
Qed.

Lemma saveas_writes_prefix_witness :
  exists k,
    write_frames (fun i => (0 <? i)%nat) 0 (repeat 7%Z 300)
      = Ok (map short_bytes (firstn k (repeat 7%Z 300))) /\
    (k <= length (repeat 7%Z 300))%nat /\
    (k = length (repeat 7%Z 300) \/
     ((k mod 256 = 0)%nat /\ (0 <? k)%nat = true)) /\
    map unpack_h (map short_bytes (firstn k (repeat 7%Z 300)))
      = map Some (firstn k (repeat 7%Z 300)).
Proof.
  apply (saveas_writes_prefix (fun i => (0 <? i)%nat) (repeat 7%Z 300)).
  apply List.Forall_forall. intros v Hv. apply repeat_spec in Hv. subst v. lia.
Defined.

Lemma Qneqb_refl (a : Q) : Qneqb a a = false.
Proof.
  unfold Qneqb. apply negb_false_iff. apply Qeq_bool_iff. reflexivity.
Qed.

Section SteadyTone.

Variable sin2pi : Q -> Q.

Lemma pull_steady (f : Q) (selfs : list PlaybackThread) :
  Forall (fun s => ft s = f) selfs ->
  forall (fs : Q) (l : tone_locals) (k : nat) (s : PlaybackThread),
    gen_ft l = f ->
    nth_error selfs k = Some s ->
    nth_error
      (snd (pull sin2pi selfs {| gen_fs := fs; gen_frame := Some l |})) k
    = Some (sin2pi (f * inject_Z (gen_x l + Z.of_nat k) / fs) * vol s * 0.95).
Proof.
  induction 1 as [|s0 selfs Hs0 Hrest IH]; intros fs l k s Hl Hk.
  - destruct k; discriminate Hk.
  - cbn [pull].
    assert (Hnext :
      next sin2pi s0 {| gen_fs := fs; gen_frame := Some l |} =
      ({| gen_fs := fs;
          gen_frame :=
            Some {| gen_x := gen_x l + 1; gen_ft := f;
                    gen_sample := sin2pi (f * inject_Z (gen_x l) / fs);
                    gen_prev_sample := gen_sample l |} |},
       sin2pi (f * inject_Z (gen_x l) / fs) * vol s0 * 0.95)).
    { unfold next, gen_start, gen_compute, gen_commit, commits.
      cbn [gen_frame gen_fs gen_ft gen_x gen_sample gen_prev_sample].
      rewrite Hl, Hs0, Qneqb_refl. reflexivity. }
    rewrite Hnext.
    destruct (pull sin2pi selfs _) as [tone'' outs] eqn:Hpull.
    cbn [snd]. destruct k as [|k]; cbn [nth_error] in Hk |- *.
    + injection Hk as <-. now rewrite Z.add_0_r.
    + specialize (IH fs {| gen_x := gen_x l + 1; gen_ft := f;
                           gen_sample := sin2pi (f * inject_Z (gen_x l) / fs);
                           gen_prev_sample := gen_sample l |}
                    k s eq_refl Hk).
      rewrite Hpull in IH.
      cbn [snd gen_x] in IH. rewrite IH.
      replace (gen_x l + 1 + Z.of_nat k)%Z with (gen_x l + Z.of_nat (S k))%Z
        by lia.
      reflexivity.
Qed.

(** X10: a generator that is started and then called while [self.ft] stays
    the same yields, at its call number [k] (from 0), the sample
    [sin(2*pi*ft*k/fs) * vol * 0.95], with the volume read at that call:
    no commit happens and the sample index is never reset. *)
Theorem steady_tone (f fs : Q) (selfs : list PlaybackThread)
  (k : nat) (s : PlaybackThread) :
  Forall (fun s => ft s = f) selfs ->
  nth_error selfs k = Some s ->
  nth_error (snd (pull sin2pi selfs (tone_gen fs))) k
  = Some (sin2pi (f * inject_Z (Z.of_nat k) / fs) * vol s * 0.95).
Proof.
  intros Hall Hk.
  destruct selfs as [|s0 selfs]; [destruct k; discriminate Hk|].
  inversion Hall as [|? ? Hs0 Hrest]; subst.
  cbn [pull].
  assert (Hnext :
    next sin2pi s0 (tone_gen fs) =
    ({| gen_fs := fs;
        gen_frame :=
          Some {| gen_x := 0 + 1; gen_ft := ft s0;
                  gen_sample := sin2pi (ft s0 * inject_Z 0 / fs);
                  gen_prev_sample := 0 |} |},
     sin2pi (ft s0 * inject_Z 0 / fs) * vol s0 * 0.95)).
  { unfold next, tone_gen, gen_start, gen_compute, gen_commit, commits.
    cbn [gen_frame gen_fs gen_ft gen_x gen_sample gen_prev_sample].
    rewrite Qneqb_refl. reflexivity. }
  rewrite Hnext.
  destruct (pull sin2pi selfs _) as [tone'' outs] eqn:Hpull.
  cbn [snd]. destruct k as [|k]; cbn [nth_error] in Hk |- *.
  - injection Hk as <-. reflexivity.
  - pose proof (pull_steady (ft s0) selfs Hrest fs
                  {| gen_x := 0 + 1; gen_ft := ft s0;
                     gen_sample := sin2pi (ft s0 * inject_Z 0 / fs);
                     gen_prev_sample := 0 |}
                  k s eq_refl Hk) as IH.
    rewrite Hpull in IH. cbn [snd gen_x] in IH. rewrite IH.
    replace (0 + 1 + Z.of_nat k)%Z with (Z.of_nat (S k)) by lia.
    reflexivity.
Qed.

End SteadyTone.

Lemma steady_tone_witness :
  nth_error
    (snd (pull quarter_sine
            [self init; self init; self init] (tone_gen 44100))) 2
  = Some (quarter_sine (20 * inject_Z (Z.of_nat 2) / 44100) * 1 * 0.95).
Proof.
  apply (steady_tone quarter_sine 20 44100 [self init; self init; self init]
           2 (self init)).
  - repeat constructor.
  - reflexivity.
Defined.

Lemma volume_ok_spec (freq v : Q) :
  volume_ok (SetNewFreq freq v) = true -> 0 <= v /\ v <= 1.
Proof.
  cbn [volume_ok]. intros H. apply andb_prop in H as [H0 H1].
  now rewrite !Qle_bool_iff in *.
Qed.

(** After [stop] the loop body is never run again. *)
Lemma stopped_stays (sin2pi : Q -> Q) (acts : list action) :
  forall (l : run_locals) (w : world),
    alive (self w) = false ->
    exists w',
      exec sin2pi acts (l, w) = Ok (l, w') /\
      alive (self w') = false /\ dsp w' = dsp w /\
      forall k buf, heap w !! k = Some buf -> heap w' !! k = Some buf.
Proof.
  induction acts as [|a acts IH]; intros l w Hdead.
  - exists w. now repeat split.
  - cbn [exec].
    assert (Hstep : exists w1,
               step sin2pi a (l, w) = Ok (l, w1) /\
               alive (self w1) = false /\ dsp w1 = dsp w /\
               forall k buf, heap w !! k = Some buf -> heap w1 !! k = Some buf).
    { destruct a; cbn [step fst snd].
      - rewrite Hdead. exists w. now repeat split.
      - eexists. split; [reflexivity|]. now repeat split.
      - eexists. split; [reflexivity|]. now repeat split.
      - eexists. split; [reflexivity|]. cbn. repeat split; [exact Hdead|].
        intros k buf Hk. rewrite lookup_insert_ne; [exact Hk|].
        intros <-. pose proof (is_fresh (dom (heap w))) as Hf.
        apply Hf, elem_of_dom. now exists buf.
      - eexists. split; [reflexivity|]. now repeat split. }
    destruct Hstep as (w1 & -> & Hd1 & Hs1 & Hh1). cbn [mbind result_bind].
    destruct (IH l w1 Hd1) as (w' & He & Hd' & Hs' & Hh').
    exists w'. split; [exact He|]. split; [exact Hd'|].
    split; [congruence|]. intros k buf Hk. apply Hh', Hh1, Hk.
Qed.

(** X11: once [stop] has been called nothing is emitted any more, whatever
    is called on the thread afterwards: the sink, the generator and every
    buffer stay as they were. *)
Theorem stop_is_final (sin2pi : Q -> Q) (acts : list action)
  (l : run_locals) (w : world) :
  exists w',
    exec sin2pi acts (l, stop w) = Ok (l, w') /\
    alive (self w') = false /\ dsp w' = dsp w /\
    forall k buf, heap w !! k = Some buf -> heap w' !! k = Some buf.
Proof.
  destruct (stopped_stays sin2pi acts l (stop w) eq_refl)
    as (w' & He & Hd & Hs & Hh).
  exists w'. now repeat split.
Qed.

Section PlaybackRuns.

Variable sin2pi : Q -> Q.
Hypothesis sin2pi_bounded : forall t, -1 <= sin2pi t /\ sin2pi t <= 1.

(** One call on a thread whose sink and bound buffer agree. *)
Lemma step_in_step (a : action) (l : run_locals) (w : world) (buf : list Z) :
  volume_ok a = true ->
  0 <= vol (self w) -> vol (self w) <= 1 ->
  heap w !! record_func l = Some buf ->
  dsp w = map short_bytes buf ->
  Forall (fun v => (-31128 <= v <= 31128)%Z) buf ->
  is_Some (get_wav_data w) ->
  exists l' w' buf',
    step sin2pi a (l, w) = Ok (l', w') /\
    record_func l' = record_func l /\
    0 <= vol (self w') /\ vol (self w') <= 1 /\
    heap w' !! record_func l' = Some buf' /\
    dsp w' = map short_bytes buf' /\
    Forall (fun v => (-31128 <= v <= 31128)%Z) buf' /\
    is_Some (get_wav_data w') /\
    (is_clear a = false -> recording (self w) = record_func l ->
     recording (self w') = record_func l').
Proof.
  intros Hok Hv0 Hv1 Hbuf Hdsp Hrange Hwav.
  destruct a as [|freq v|b| |]; cbn [step fst snd].
  - destruct (alive (self w)) eqn:Ha.
    2:{ exists l, w, buf. now repeat split. }
    destruct (paused (self w)) eqn:Hp.
    { exists l, w, buf. unfold loop_body. rewrite Hp. now repeat split. }
    pose proof (loop_body_playing sin2pi sin2pi_bounded l w Hp Hv0 Hv1)
      as Hbody.
    cbv zeta in Hbody.
    pose proof (sample_in_range sin2pi sin2pi_bounded (self w) (tone l)
                  Hv0 Hv1) as Hr.
    set (val_i := py_int _) in *.
    rewrite Hbody. eexists _, _, (buf ++ [val_i]).
    split; [reflexivity|]. cbn [record_func self heap dsp].
    split; [reflexivity|]. split; [exact Hv0|]. split; [exact Hv1|].
    split; [now apply append_lookup|].
    split; [now rewrite Hdsp, map_app|].
    split; [apply Forall_app; split; [exact Hrange | now repeat constructor]|].
    split; [|now intros _ Heq].
    unfold get_wav_data in *. cbn [self heap]. unfold append.
    destruct Hwav as [data Hdata].
    destruct (decide (record_func l = recording (self w))) as [Heq | Hne].
    + rewrite Heq, lookup_alter_eq, Hdata. now eexists.
    + rewrite lookup_alter_ne by exact Hne. now exists data.
  - apply volume_ok_spec in Hok as [H0 H1].
    exists l, (set_new_freq freq v w), buf. now repeat split.
  - exists l, (set_paused b w), buf. now repeat split.
  - exists l, (clear_wav_data w), buf.
    assert (Hne : fresh (dom (heap w)) <> record_func l).
    { intros Heq. pose proof (is_fresh (dom (heap w))) as Hf.
      rewrite Heq in Hf. apply Hf, elem_of_dom. now exists buf. }
    split; [reflexivity|]. cbn [clear_wav_data self heap dsp vol].
    split; [reflexivity|]. split; [exact Hv0|]. split; [exact Hv1|].
    split; [now rewrite lookup_insert_ne|].
    split; [exact Hdsp|]. split; [exact Hrange|].
    split; [|discriminate].
    unfold get_wav_data, clear_wav_data. cbn [self heap recording].
    rewrite lookup_insert_eq. now eexists.
  - exists l, (stop w), buf. now repeat split.
Qed.

Lemma exec_in_step (acts : list action) :
  forall (l : run_locals) (w : world) (buf : list Z),
    forallb volume_ok acts = true ->
    0 <= vol (self w) -> vol (self w) <= 1 ->
    heap w !! record_func l = Some buf ->
    dsp w = map short_bytes buf ->
    Forall (fun v => (-31128 <= v <= 31128)%Z) buf ->
    is_Some (get_wav_data w) ->
    exists l' w' buf',
      exec sin2pi acts (l, w) = Ok (l', w') /\
      record_func l' = record_func l /\
      0 <= vol (self w') /\ vol (self w') <= 1 /\
      heap w' !! record_func l' = Some buf' /\
      dsp w' = map short_bytes buf' /\
      Forall (fun v => (-31128 <= v <= 31128)%Z) buf' /\
      is_Some (get_wav_data w') /\
      (existsb is_clear acts = false ->
       recording (self w) = record_func l ->
       recording (self w') = record_func l').
Proof.
  induction acts as [|a acts IH];
    intros l w buf Hok Hv0 Hv1 Hbuf Hdsp Hrange Hwav.
  - exists l, w, buf. now repeat split.
  - cbn [forallb] in Hok. apply andb_prop in Hok as [Ha Hacts].
    destruct (step_in_step a l w buf Ha Hv0 Hv1 Hbuf Hdsp Hrange Hwav)
      as (l1 & w1 & buf1 & Hs & Hr1 & Hv01 & Hv11 & Hb1 & Hd1 & Hg1 & Hw1 & Hc1).
    destruct (IH l1 w1 buf1 Hacts Hv01 Hv11 Hb1 Hd1 Hg1 Hw1)
      as (l' & w' & buf' & He & Hr' & Hv0' & Hv1' & Hb' & Hd' & Hg' & Hw' & Hc').
    exists l', w', buf'. cbn [exec]. rewrite Hs. cbn [mbind result_bind].
    split; [exact He|]. split; [congruence|].
    split; [exact Hv0'|]. split; [exact Hv1'|]. split; [exact Hb'|].
    split; [exact Hd'|]. split; [exact Hg'|]. split; [exact Hw'|].
    cbn [existsb]. intros Hnc Hatt. apply orb_false_elim in Hnc as [Hna Hnacts].
    apply Hc'; [exact Hnacts|]. now apply Hc1.
Qed.

(** X12: whatever is called on a started thread, in whatever order and with
    loop passes in between, nothing raises as long as the volumes passed
    to [set_new_freq] are in [0, 1]; the sink has then received exactly
    the packing of what the buffer bound at the start of [run] holds,
    every recorded sample lies in [-31128, 31128], and [get_wav_data]
    names a buffer. *)
Theorem playback_never_raises (acts : list action) :
  forallb volume_ok acts = true ->
  exists l w buf,
    exec sin2pi acts started = Ok (l, w) /\
    heap w !! record_func l = Some buf /\
    dsp w = map short_bytes buf /\
    Forall (fun v => (-31128 <= v <= 31128)%Z) buf /\
    is_Some (get_wav_data w).
Proof.
  intros Hok.
  destruct (exec_in_step acts (run_enter init) init [] Hok)
    as (l & w & buf & He & _ & _ & _ & Hb & Hd & Hg & Hw & _);
    try reflexivity; try (vm_compute; discriminate).
  - constructor.
  - now exists [].
  - exists l, w, buf. now repeat split.
Qed.

(** X13: as long as [clear_wav_data] is not called, the recording that
    [get_wav_data] returns is the stream that went to the sink, sample for
    sample. *)
Theorem recording_is_sink_stream (acts : list action) :
  forallb volume_ok acts = true -> existsb is_clear acts = false ->
  exists l w buf,
    exec sin2pi acts started = Ok (l, w) /\
    get_wav_data w = Some buf /\
    dsp w = map short_bytes buf /\
    map unpack_h (dsp w) = map Some buf.
Proof.
  intros Hok Hnc.
  destruct (exec_in_step acts (run_enter init) init [] Hok)
    as (l & w & buf & He & _ & _ & _ & Hb & Hd & Hg & _ & Hatt);
    try reflexivity; try (vm_compute; discriminate).
  - constructor.
  - now exists [].
  - exists l, w, buf. split; [exact He|].
    unfold get_wav_data. rewrite (Hatt Hnc eq_refl).
    split; [exact Hb|]. split; [exact Hd|].
    rewrite Hd. apply unpack_short_bytes.
    eapply Forall_impl; [exact Hg|]. cbn. intros v Hv. lia.
Qed.

(** X14: a [clear_wav_data] made before the thread is started does no
    harm: [run] then binds the new buffer, and the recording is again the
    stream that went to the sink. *)
Theorem clear_before_start_is_harmless (acts : list action) :
  forallb volume_ok acts = true -> existsb is_clear acts = false ->
  exists l w buf,
    exec sin2pi acts (run_enter (clear_wav_data init), clear_wav_data init)
      = Ok (l, w) /\
    get_wav_data w = Some buf /\
    dsp w = map short_bytes buf.
Proof.
  intros Hok Hnc.
  destruct (exec_in_step acts (run_enter (clear_wav_data init))
              (clear_wav_data init) [] Hok)
    as (l & w & buf & He & _ & _ & _ & Hb & Hd & Hg & _ & Hatt);
    try reflexivity; try (vm_compute; discriminate).
  - constructor.
  - now exists [].
  - exists l, w, buf. split; [exact He|].
    unfold get_wav_data. rewrite (Hatt Hnc eq_refl). now split.
Qed.

(** X15: after such a run [saveas], if the dialog is left alone and the
    thread makes no pass meanwhile, writes to the file exactly the frames
    that went to the sink. *)
Theorem saveas_writes_what_was_played (acts : list action) :
  forallb volume_ok acts = true -> existsb is_clear acts = false ->
  exists l w,
    exec sin2pi acts started = Ok (l, w) /\
    saveas (fun _ => false) w = Ok (dsp w).
Proof.
  intros Hok Hnc.
  destruct (exec_in_step acts (run_enter init) init [] Hok)
    as (l & w & buf & He & _ & _ & _ & Hb & Hd & Hg & _ & Hatt);
    try reflexivity; try (vm_compute; discriminate).
  - constructor.
  - now exists [].
  - exists l, w. split; [exact He|].
    unfold saveas, get_wav_data. rewrite (Hatt Hnc eq_refl), Hb.
    assert (Hr : Forall (fun v => (-32768 <= v <= 32767)%Z) buf).
    { eapply Forall_impl; [exact Hg|]. cbn. intros v Hv. lia. }
    destruct (write_frames_ok (fun _ => false) buf Hr 0)
      as (k & Hw & Hk & [-> | [_ Hab]]); [|discriminate Hab].
    rewrite Hw, firstn_all, Hd. reflexivity.
Qed.

End PlaybackRuns.

Lemma playback_never_raises_witness :
  exists l w buf,
    exec quarter_sine quarter_rate_run started = Ok (l, w) /\
    heap w !! record_func l = Some buf /\
    dsp w = map short_bytes buf /\
    Forall (fun v => (-31128 <= v <= 31128)%Z) buf /\
    is_Some (get_wav_data w).
Proof.
  apply (playback_never_raises quarter_sine quarter_sine_bounded
           quarter_rate_run).
  vm_compute. reflexivity.
Defined.

Lemma recording_is_sink_stream_witness :
  exists l w buf,
    exec quarter_sine quarter_rate_run started = Ok (l, w) /\
    get_wav_data w = Some buf /\
    dsp w = map short_bytes buf /\
    map unpack_h (dsp w) = map Some buf.
Proof.
  apply (recording_is_sink_stream quarter_sine quarter_sine_bounded
           quarter_rate_run); vm_compute; reflexivity.
Defined.

Lemma saveas_writes_what_was_played_witness :
  exists l w,
    exec quarter_sine quarter_rate_run started = Ok (l, w) /\
    saveas (fun _ => false) w = Ok (dsp w).
Proof.
  apply (saveas_writes_what_was_played quarter_sine quarter_sine_bounded
           quarter_rate_run); vm_compute; reflexivity.
Defined.

Lemma clear_before_start_is_harmless_witness :
  exists l w buf,
    exec quarter_sine quarter_rate_run
      (run_enter (clear_wav_data init), clear_wav_data init) = Ok (l, w) /\
    get_wav_data w = Some buf /\
    dsp w = map short_bytes buf.
Proof.
  apply (clear_before_start_is_harmless quarter_sine quarter_sine_bounded
           quarter_rate_run); vm_compute; reflexivity.
Defined.

(** ** The control path *)

Lemma select_from_incl (intervals : list nat) (notes : list Note) :
  forall i note, In note (select_from i intervals notes) -> In note notes.
Proof.
  induction notes as [|n notes IH]; intros i note; cbn [select_from].
  - tauto.
  - destruct (existsb _ intervals).
    + intros [<- | H]; [now left | right; eauto].
    + intros H. right. eauto.
Qed.

Lemma select_from_mono (small large : list nat) (notes : list Note) :
  (forall m, existsb (Nat.eqb m) small = true ->
             existsb (Nat.eqb m) large = true) ->
  forall i note,
    In note (select_from i small notes) -> In note (select_from i large notes).
Proof.
  intros Hsub. induction notes as [|n notes IH]; intros i note;
    cbn [select_from]; [tauto|].
  destruct (existsb (Nat.eqb (i mod 12)) small) eqn:Hs.
  - rewrite (Hsub _ Hs). intros [<- | H]; [now left | right; eauto].
  - intros H. destruct (existsb _ large); [right|]; eauto.
Qed.

Lemma rotated_incl (n : nat) (note : Note) : In note (rotated n) -> In note NOTES.
Proof.
  unfold rotated. intros H. apply in_app_or in H.
  rewrite <- (firstn_skipn n NOTES). apply in_or_app. tauto.
Qed.

Lemma roots_selected (intervals : list nat) (notes : list Note) :
  existsb (Nat.eqb 0) intervals = true ->
  forall note, In note (select [0%nat] notes) -> In note (select intervals notes).
Proof.
  intros H0. apply select_from_mono. intros m Hm.
  cbn [existsb] in Hm. rewrite orb_false_r in Hm.
  apply Nat.eqb_eq in Hm. now subst m.
Qed.

Lemma roots_in_key_notes (scale_name : string) (n : nat) (notes : list Note) :
  key_notes scale_name (rotated n) = Ok notes ->
  forall note, In note (select [0%nat] (rotated n)) -> In note notes.
Proof.
  unfold key_notes.
  destruct (String.eqb scale_name "chromatic").
  { intros [= <-] note Hin. apply rotated_incl with (n := n).
    now apply select_from_incl in Hin. }
  repeat (destruct (String.eqb scale_name _);
          [intros [= <-]; now apply roots_selected|]).
  intros Hno. discriminate Hno.
Qed.

Lemma tables_safe :
  forallb
    (fun scale_name =>
       forallb (fun n => match key_notes scale_name (rotated n) with
                         | Ok notes => table_safe 2000 (just_freqs notes)
                         | Raise _ => false
                         end)
               (seq 0 12))
    SCALES = true.
Proof. vm_compute. reflexivity. Qed.

Lemma filt_on_safe_table (tones : list Q) (x : Q) :
  table_safe 2000 tones = true -> 0 <= x -> x <= 2000 ->
  exists v,
    filt tones x = Ok v /\
    forall t, In t (ascending_prefix tones) -> Qabs (v - x) <= Qabs (x - t).
Proof.
  unfold table_safe. intros H Hx0 Hx1.
  apply andb_prop in H as [Hrise H]. apply andb_prop in H as [H0 H1].
  apply Qle_bool_iff in H0, H1.
  destruct (filt_ignores_tail tones x 2000 Hrise Hx1) as (v & Hv & _ & Hmin).
  - apply Qabs_Qle_condition. split; lra.
  - now exists v.
Qed.

Lemma app_ok_table (app : ThereminApp) :
  app_ok app -> table_safe 2000 (tone_filter app) = true.
Proof.
  intros (Hscale & (n & Hn & Hshift) & Hnotes & _ & Hfilter).
  pose proof tables_safe as Hall. rewrite forallb_forall in Hall.
  specialize (Hall _ Hscale). rewrite forallb_forall in Hall.
  specialize (Hall n). rewrite Hshift in Hnotes. rewrite Hnotes in Hall.
  rewrite Hfilter. apply Hall. apply in_seq. lia.
Qed.

Lemma app_init_ok : app_ok app_init.
Proof.
  split; [now left|]. split.
  - exists 0%nat. split; [lia|]. unfold rotated. cbn [skipn firstn app_init
      shifted_notes]. now rewrite app_nil_r.
  - now repeat split.
Qed.

Lemma new_tone_filter_keeps (app : ThereminApp) (n : nat) :
  In (scale app) SCALES -> (n < 12)%nat -> shifted_notes app = rotated n ->
  exists app', new_tone_filter app = Ok app' /\ app_ok app'.
Proof.
  intros Hscale Hn Hshift.
  destruct (key_notes_ok (scale app) (shifted_notes app) Hscale)
    as [notes Hnotes].
  rewrite new_tone_filter_unfold, Hnotes. cbn [mbind result_bind].
  eexists. split; [reflexivity|].
  split; [exact Hscale|]. split; [now exists n|]. now repeat split.
Qed.

Lemma existsb_eqb_In (s : string) (l : list string) :
  existsb (String.eqb s) l = true -> In s l.
Proof.
  intros H. apply existsb_exists in H as (t & Ht & Heq).
  apply String.eqb_eq in Heq. now subst.
Qed.

Ltac done_handling :=
  split; [reflexivity|]; split; [assumption|]; split; [assumption|];
  split; reflexivity.

Section System.

Variable log10 : Q -> Q.
Variable sin2pi : Q -> Q.
Hypothesis log10_unit :
  forall v, 1 <= v -> v <= 10 -> 0 <= log10 v /\ log10 v <= 1.
Hypothesis sin2pi_bounded : forall t, -1 <= sin2pi t /\ sin2pi t <= 1.

Lemma pointer_freq_range (ctl : Controls) (x : Q) (width : positive) :
  freq_min ctl <= freq_max ctl ->
  freq_min ctl <= pointer_freq ctl x width /\
  pointer_freq ctl x width <= freq_max ctl.
Proof.
  intros Hmm. unfold pointer_freq.
  set (raw := x / inject_Z (Z.pos width) * (freq_max ctl - freq_min ctl)
              + freq_min ctl).
  destruct (Qltb (freq_max ctl) raw) eqn:Hhi.
  - destruct (Qltb (freq_max ctl) (freq_min ctl)) eqn:Hlo.
    + apply Qltb_lt in Hlo. lra.
    + split; lra.
  - apply Qltb_ge in Hhi.
    destruct (Qltb raw (freq_min ctl)) eqn:Hlo.
    + split; lra.
    + apply Qltb_ge in Hlo. split; lra.
Qed.

Lemma pointer_vol_range (y : Q) (height : positive) :
  0 <= pointer_vol log10 y height /\ pointer_vol log10 y height <= 1.
Proof.
  unfold pointer_vol.
  set (raw := (inject_Z (Z.pos height) - y) / inject_Z (Z.pos height)).
  set (capped := if Qltb 1 raw then 1 else raw).
  assert (Hcap : capped <= 1).
  { subst capped. destruct (Qltb 1 raw) eqn:H1; [lra|]. now apply Qltb_ge. }
  set (clamped := if Qltb capped 0 then 0 else capped).
  assert (Hcl : 0 <= clamped /\ clamped <= 1).
  { subst clamped. destruct (Qltb capped 0) eqn:H0; [lra|].
    apply Qltb_ge in H0. now split. }
  apply log10_unit; lra.
Qed.

(** X16: wherever the pointer is, inside the widget or dragged out of it,
    the frequency that [motion_notify_event] derives lies between
    [freq_min] and [freq_max], and the volume between 0 and 1. *)
Theorem pointer_is_clamped (ctl : Controls) (x y : Q)
  (width height : positive) :
  freq_min ctl <= freq_max ctl ->
  (freq_min ctl <= pointer_freq ctl x width /\
   pointer_freq ctl x width <= freq_max ctl) /\
  (0 <= pointer_vol log10 y height /\ pointer_vol log10 y height <= 1).
Proof.
  intros Hmm. split; [now apply pointer_freq_range | apply pointer_vol_range].
Qed.

Lemma set_tone_keeps (freq v : Q) (app : ThereminApp) (ctl : Controls) :
  app_ok app -> controls_ok ctl ->
  0 <= freq -> freq <= 2000 -> 0 <= v -> v <= 1 ->
  exists ctl' closest,
    set_tone freq v (app, ctl)
      = Ok ((app, ctl'), [SetNewFreq closest (v * master_volume ctl)]) /\
    controls_ok ctl' /\ mode ctl' = mode ctl /\
    (0 <= v * master_volume ctl /\ v * master_volume ctl <= 1).
Proof.
  intros Happ ((Hm0 & Hm1) & Hvol & Hfreq & Hmin & Hmax) Hf0 Hf1 Hv0 Hv1.
  assert (Hprod : 0 <= v * master_volume ctl /\ v * master_volume ctl <= 1)
    by (split; nra).
  unfold set_tone.
  destruct (String.eqb (mode ctl) "discrete").
  - destruct (filt_on_safe_table (tone_filter app) freq
                (app_ok_table app Happ) Hf0 Hf1) as (closest & Hc & _).
    unfold discrete_tones. rewrite Hc. cbn [mbind result_bind].
    eexists _, closest. split; [reflexivity|].
    split; [|now split]. now repeat split.
  - cbn [mbind result_bind]. eexists _, freq. split; [reflexivity|].
    split; [|now split]. now repeat split.
Qed.

(** One handler call on a state that is in order. *)
Lemma handle_keeps (e : ui_event) (app : ThereminApp) (ctl : Controls) :
  event_ok (Ui e) = true -> app_ok app -> controls_ok ctl ->
  exists app' ctl' calls,
    handle log10 e (app, ctl) = Ok ((app', ctl'), calls) /\
    app_ok app' /\ controls_ok ctl' /\
    forallb volume_ok calls = true /\ existsb is_clear calls = false.
Proof.
  intros Hev Happ Hctl.
  pose proof Happ as (Hscale & (n & Hn & Hshift) & _).
  pose proof Hctl as ((Hm0 & Hm1) & (Hv0 & Hv1) & (Hf0 & Hf1) & Hmin & Hmax).
  destruct e; cbn [handle event_ok] in *.
  - apply existsb_eqb_In in Hev.
    destruct (new_tone_filter_keeps
                {| scale := scale_name; key := key app;
                   shifted_notes := shifted_notes app;
                   discrete_notes := discrete_notes app;
                   root_notes := root_notes app;
                   tone_filter := tone_filter app |} n Hev Hn Hshift)
      as (app' & Hok & Happ').
    unfold scale_changed. rewrite Hok. cbn [mbind result_bind].
    exists app', ctl, []. now done_handling.
  - destruct (new_tone_filter_keeps app n Hscale Hn Hshift)
      as (app' & Hok & Happ').
    rewrite Hok. cbn [mbind result_bind].
    exists app', (with_mode mode_name ctl), []. now done_handling.
  - destruct (shifts !! key_text) as [m|] eqn:Hkey; [|discriminate Hev].
    rewrite (key_changed_unfold _ _ _ Hkey).
    destruct (new_tone_filter_keeps
                {| scale := scale app; key := key_text;
                   shifted_notes := rotated m;
                   discrete_notes := discrete_notes app;
                   root_notes := root_notes app;
                   tone_filter := tone_filter app |} m Hscale
                (shifts_range _ _ Hkey) eq_refl)
      as (app' & Hok & Happ').
    rewrite Hok. cbn [mbind result_bind].
    exists app', ctl, []. now done_handling.
  - apply andb_prop in Hev as [Hs1 Hs10]. apply Qle_bool_iff in Hs1, Hs10.
    destruct (log10_unit slider Hs1 Hs10) as [Hl0 Hl1].
    destruct (set_tone_keeps (app_freq ctl) (app_vol ctl) app
                (with_master_volume (log10 slider) ctl))
      as (ctl' & closest & Hset & Hctl' & _ & Hp0 & Hp1); try assumption.
    { now repeat split. }
    rewrite Hset. eexists app, ctl', _. split; [reflexivity|].
    split; [exact Happ|]. split; [exact Hctl'|].
    cbn [forallb existsb volume_ok is_clear]. split; [|reflexivity].
    rewrite andb_true_r. apply andb_true_intro.
    split; now apply Qle_bool_iff.
  - destruct button1.
    + assert (Hmm : freq_min ctl <= freq_max ctl) by (rewrite Hmin, Hmax; lra).
      destruct (pointer_freq_range ctl x width Hmm) as [Hp0 Hp1].
      destruct (pointer_vol_range y height) as [Hy0 Hy1].
      rewrite Hmin in Hp0. rewrite Hmax in Hp1.
      destruct (set_tone_keeps (pointer_freq ctl x width)
                  (pointer_vol log10 y height) app ctl)
        as (ctl' & closest & Hset & Hctl' & _ & Hq0 & Hq1);
        try assumption; try lra.
      rewrite Hset. eexists app, ctl', _. split; [reflexivity|].
      split; [exact Happ|]. split; [exact Hctl'|].
      cbn [forallb existsb volume_ok is_clear]. split; [|reflexivity].
      rewrite andb_true_r. apply andb_true_intro.
      split; now apply Qle_bool_iff.
    + exists app, ctl, []. now done_handling.
  - exists app, ctl, [SetPaused (negb active)]. now done_handling.
  - exists app, ctl, [Stop]. now done_handling.
Qed.

Lemma playback_ok_exec (calls : list action) (st : run_locals * world) :
  forallb volume_ok calls = true -> existsb is_clear calls = false ->
  playback_ok st ->
  exists st', exec sin2pi calls st = Ok st' /\ playback_ok st'.
Proof.
  intros Hvol Hnc ((Hv0 & Hv1) & Hatt & buf & Hbuf & Hdsp & Hrange).
  destruct st as [l w]. cbn [fst snd] in *.
  destruct (exec_in_step sin2pi sin2pi_bounded calls l w buf Hvol Hv0 Hv1
              Hbuf Hdsp Hrange)
    as (l' & w' & buf' & He & _ & Hv0' & Hv1' & Hb' & Hd' & Hg' & _ & Hatt').
  { unfold get_wav_data. rewrite Hatt, Hbuf. now eexists. }
  exists (l', w'). split; [exact He|].
  split; [now split|]. split; [now apply Hatt'|]. now exists buf'.
Qed.

Lemma sys_step_keeps (e : sys_event) (s : system) :
  event_ok e = true -> system_ok s ->
  exists s', sys_step log10 sin2pi e s = Ok s' /\ system_ok s'.
Proof.
  intros Hev (Happ & Hctl & Hpb).
  destruct s as [[app ctl] pb]. cbn [fst snd] in *.
  destruct e as [e|]; cbn [sys_step fst snd].
  - destruct (handle_keeps e app ctl Hev Happ Hctl)
      as (app' & ctl' & calls & Hh & Happ' & Hctl' & Hvol & Hnc).
    rewrite Hh. cbn [mbind result_bind snd fst].
    destruct (playback_ok_exec calls pb Hvol Hnc Hpb) as (pb' & He & Hpb').
    rewrite He. cbn [mbind result_bind].
    eexists. split; [reflexivity|]. split; [assumption|]. split; assumption.
  - destruct (playback_ok_exec [Iterate] pb eq_refl eq_refl Hpb)
      as (pb' & He & Hpb').
    cbn [exec] in He.
    destruct (step sin2pi Iterate pb) as [pb1|] eqn:Hs;
      cbn [mbind result_bind] in He |- *; [|discriminate He].
    injection He as <-.
    eexists. split; [reflexivity|]. split; [assumption|]. split; assumption.
Qed.

Lemma drive_keeps (es : list sys_event) :
  forall s, forallb event_ok es = true -> system_ok s ->
            exists s', drive log10 sin2pi es s = Ok s' /\ system_ok s'.
Proof.
  induction es as [|e es IH]; intros s Hev Hs.
  - now exists s.
  - cbn [forallb] in Hev. apply andb_prop in Hev as [He Hes].
    destruct (sys_step_keeps e s He Hs) as (s1 & Hstep & Hs1).
    destruct (IH s1 Hes Hs1) as (s' & Hd & Hs').
    exists s'. cbn [drive]. rewrite Hstep. now split.
Qed.

Lemma system_init_ok : system_ok (system_init log10).
Proof.
  split; [exact app_init_ok|]. split.
  - assert (Hlog : 0 <= log10 7.2 /\ log10 7.2 <= 1)
      by (apply log10_unit; lra).
    split; [exact Hlog|]. cbn. repeat split; lra.
  - split; [cbn; split; lra|]. split; [reflexivity|].
    exists []. repeat split. constructor.
Qed.

(** X17: from start-up, whatever the widgets deliver and however the loop
    passes fall in between, no handler and no loop pass raises; the volume
    the thread holds stays in [0, 1], and the recording that
    [get_wav_data] returns is the stream that went to the sink. *)
Theorem program_never_raises (es : list sys_event) :
  forallb event_ok es = true ->
  exists app ctl l w buf,
    drive log10 sin2pi es (system_init log10) = Ok ((app, ctl), (l, w)) /\
    (0 <= vol (self w) /\ vol (self w) <= 1) /\
    get_wav_data w = Some buf /\
    dsp w = map short_bytes buf /\
    Forall (fun v => (-31128 <= v <= 31128)%Z) buf.
Proof.
  intros Hev.
  destruct (drive_keeps es _ Hev system_init_ok)
    as ([[app ctl] [l w]] & Hd & _ & _ & Hvol & Hatt & buf & Hbuf & Hdsp & Hr).
  cbn [fst snd] in *.
  exists app, ctl, l, w, buf. split; [exact Hd|]. split; [exact Hvol|].
  unfold get_wav_data. rewrite Hatt. now repeat split.
Qed.

(** X18: in every state the program can reach, the quantizer does not raise
    on an input in [0, 2000] and returns a value that is as near to the
    input as any entry of the ascending part of the candidate table: the
    entries that the key rotation has left out of order at its end are
    never reached. *)
Theorem reachable_quantizer_sound (es : list sys_event) (s : system) (x : Q) :
  forallb event_ok es = true ->
  drive log10 sin2pi es (system_init log10) = Ok s ->
  0 <= x -> x <= 2000 ->
  exists v,
    discrete_tones (tone_filter (fst (fst s))) x = Ok v /\
    forall t, In t (ascending_prefix (tone_filter (fst (fst s)))) ->
              Qabs (v - x) <= Qabs (x - t).
Proof.
  intros Hev Hd Hx0 Hx1.
  destruct (drive_keeps es _ Hev system_init_ok) as (s' & Hd' & Happ & _).
  rewrite Hd in Hd'. injection Hd' as <-.
  apply filt_on_safe_table; [now apply app_ok_table | exact Hx0 | exact Hx1].
Qed.

(** X19: in every state the program can reach, every root note is one of
    the candidate notes, whatever the scale and the key. *)
Theorem reachable_roots_are_candidates (es : list sys_event) (s : system) :
  forallb event_ok es = true ->
  drive log10 sin2pi es (system_init log10) = Ok s ->
  forall note, In note (root_notes (fst (fst s))) ->
               In note (discrete_notes (fst (fst s))).
Proof.
  intros Hev Hd.
  destruct (drive_keeps es _ Hev system_init_ok) as (s' & Hd' & Happ & _).
  rewrite Hd in Hd'. injection Hd' as <-.
  destruct Happ as (_ & (n & _ & Hshift) & Hnotes & Hroots & _).
  rewrite Hroots, Hshift. rewrite Hshift in Hnotes.
  now apply roots_in_key_notes with (scale_name := scale (fst (fst s))).
Qed.

End System.

(** X20: in the chromatic scale the key has no effect on the quantizer: the
    candidates are the whole note table, in its own order, whatever the
    key. *)
Theorem chromatic_ignores_key (key_text : string) (app app' : ThereminApp) :
  scale app = "chromatic"%string ->
  key_changed key_text app = Ok app' ->
  discrete_notes app' = NOTES /\ tone_filter app' = just_freqs NOTES.
Proof.
  intros Hscale Hok.
  destruct (shifts !! key_text) as [n|] eqn:Hkey.
  2:{ unfold key_changed in Hok. rewrite Hkey in Hok. discriminate Hok. }
  rewrite (key_changed_unfold _ _ _ Hkey) in Hok.
  apply new_tone_filter_fields in Hok as (_ & _ & _ & Hnotes & _ & Hfilter).
  cbn [scale shifted_notes] in Hnotes. rewrite Hscale in Hnotes.
  injection Hnotes as Hnotes. rewrite Hfilter, <- Hnotes. now split.
Qed.

Lemma chromatic_ignores_key_witness :
  exists app',
    key_changed "G#" app_init = Ok app' /\
    discrete_notes app' = NOTES /\ tone_filter app' = just_freqs NOTES.
Proof.
  eexists. split; [vm_compute; reflexivity|].
  apply (chromatic_ignores_key "G#" app_init); [reflexivity|].
  vm_compute. reflexivity.
Defined.

(** ** Concrete cases of the control path *)

Lemma chord_log_unit (v : Q) :
  1 <= v -> v <= 10 -> 0 <= chord_log v /\ chord_log v <= 1.
Proof.
  intros H1 H10. unfold chord_log, Qdiv. change (/ 9) with (1 # 9).
  split; lra.
Qed.

Lemma after_session_reached :
  drive chord_log quarter_sine session (system_init chord_log)
  = Ok after_session.
Proof. vm_compute. reflexivity. Qed.

Lemma pointer_is_clamped_witness :
  (20 <= pointer_freq (controls_init chord_log) 900 300 /\
   pointer_freq (controls_init chord_log) 900 300 <= 2000) /\
  (0 <= pointer_vol chord_log (-5) 100 /\ pointer_vol chord_log (-5) 100 <= 1).
Proof.
  apply (pointer_is_clamped chord_log chord_log_unit
           (controls_init chord_log) 900 (-5) 300 100).
  vm_compute. discriminate.
Defined.

Lemma program_never_raises_witness :
  exists app ctl l w buf,
    drive chord_log quarter_sine session (system_init chord_log)
      = Ok ((app, ctl), (l, w)) /\
    (0 <= vol (self w) /\ vol (self w) <= 1) /\
    get_wav_data w = Some buf /\
    dsp w = map short_bytes buf /\
    Forall (fun v => (-31128 <= v <= 31128)%Z) buf.
Proof.
  apply (program_never_raises chord_log quarter_sine chord_log_unit
           quarter_sine_bounded session).
  vm_compute. reflexivity.
Defined.

Lemma reachable_quantizer_sound_witness :
  exists v,
    discrete_tones (tone_filter (fst (fst after_session))) 440 = Ok v /\
    forall t, In t (ascending_prefix (tone_filter (fst (fst after_session)))) ->
              Qabs (v - 440) <= Qabs (440 - t).
Proof.
  apply (reachable_quantizer_sound chord_log quarter_sine chord_log_unit
           quarter_sine_bounded session after_session 440).
  - vm_compute. reflexivity.
  - vm_compute. reflexivity.
  - vm_compute. discriminate.
  - vm_compute. discriminate.
Defined.

Lemma reachable_roots_are_candidates_witness :
  incl (root_notes (fst (fst after_session)))
       (discrete_notes (fst (fst after_session))).
Proof.
  intros note.
  apply (reachable_roots_are_candidates chord_log quarter_sine chord_log_unit
           quarter_sine_bounded session after_session).
  - vm_compute. reflexivity.
  - vm_compute. reflexivity.
Defined.
